(** * mmdet-yolov4: the mosaic compositor and the training hooks

    A shallow embedding of [mmdet/models/detectors/yolov4.py]:
    - [Mosaic]: [MosaicPipeline.__call__], over a small model of the numpy
      arrays it builds;
    - [Accumulate]: [AMPGradAccumulateOptimizerHook], as a trace of the calls
      it makes on its collaborators;
    - [EMA]: [YOLOV4EMAHook], over a store of tensor objects shared between
      the model and the hook;
    - [MosaicMore], [AccumulateMore], [EMAMore]: when these raise, whole
      runs, and what they leave alone;
    - [RoundPad]: the pad transform, alone and in front of the compositor;
    - [BiasPreHeat]: [LrBiasPreHeatHook], over the learning rates of the
      parameter groups;
    - [Fp16Accumulate]: [Fp16GradAccumulateOptimizerHook], over the
      attributes it rebinds, with the callbacks of its parent as parameters.

    Python exceptions are the [None] of [option]; Python integers are [Z]. *)

From Stdlib Require Import ZArith QArith Reals Lra.
From Stdlib Require Import Ascii String.
From stdpp Require Import gmap strings list fin_maps.

Local Open Scope Z_scope.

(** Monadic left fold: a [for] loop whose body may raise. *)
Fixpoint foldM {A B : Type} (f : A → B → option A) (a : A) (l : list B) : option A :=
  match l with
  | [] => Some a
  | b :: l' => a' ← f a b; foldM f a' l'
  end.

(** [[g(x) for x in l]] where [g] may raise. *)
Fixpoint forM {A B : Type} (g : A → option B) (l : list A) : option (list B) :=
  match l with
  | [] => Some []
  | a :: l' => b ← g a; bs ← forM g l'; Some (b :: bs)
  end.

Lemma forM_Some {A B : Type} (g : A → option B) (l : list A) (ys : list B) :
  forM g l = Some ys → Forall2 (λ x y, g x = Some y) l ys.
Proof.
  revert ys. induction l as [|a l IH]; intros ys H; simpl in H.
  - injection H as <-. constructor.
  - destruct (g a) as [b|] eqn:Eb; simpl in H; [|done].
    destruct (forM g l) as [bs|]; simpl in H; [|done].
    injection H as <-. constructor; [done|]. by apply IH.
Qed.

(** ** numpy arrays, as far as the compositor uses them *)
Module Numpy.

Inductive dtype := uint8 | int64 | float32 | float64.

#[export] Instance dtype_eq_dec : EqDecision dtype.
Proof. solve_decision. Defined.

(** What a floating-point type must provide: the C conversion to an integer
    (towards zero) and the conversion from an integer. *)
Class FloatOps (float : Type) := {
  float_trunc : float → Z;
  float_of_int : Z → float
}.

Section Arrays.
Context {float : Type} `{!FloatOps float}.

(** A channel value: an integer of any width, or a float. *)
Inductive scalar := SInt (z : Z) | SFloat (f : float).

Definition to_int (s : scalar) : Z :=
  match s with SInt z => z | SFloat f => float_trunc f end.

(** An unsafe cast, as [np.full] and slice assignment perform it: integers
    keep their low bits, floats are truncated first.  The rounding between
    float widths is not modelled. *)
Definition astype (d : dtype) (s : scalar) : scalar :=
  match d with
  | uint8 => SInt (to_int s mod 256)
  | int64 => SInt ((to_int s + 2 ^ 63) mod 2 ^ 64 - 2 ^ 63)
  | float32 | float64 =>
      match s with SInt z => SFloat (float_of_int z) | SFloat f => SFloat f end
  end.

(** An H×W×C array: its dtype, its shape and its entries. *)
Record ndarray := {
  arr_dtype : dtype;
  arr_shape : Z * Z * Z;
  arr_at : Z → Z → Z → scalar
}.

(** [np.full(shape, fill_value, dtype=dtype)]; a negative dimension raises. *)
Definition full (shape : Z * Z * Z) (fill_value : scalar) (d : dtype) : option ndarray :=
  let '(h, w, c) := shape in
  if decide (0 ≤ h ∧ 0 ≤ w ∧ 0 ≤ c) then
    Some {| arr_dtype := d; arr_shape := shape;
            arr_at := λ _ _ _, astype d fill_value |}
  else None.

(** The bounds Python gives [start:stop] on an axis of length [len]. *)
Definition slice_index (i len : Z) : Z :=
  if i <? 0 then Z.max (i + len) 0 else Z.min i len.

Definition in_slice (lo hi i : Z) : bool := (lo <=? i) && (i <? hi).

(** [dst[y1:y2, x1:x2] = src], in place: [src] must have the shape of the
    selected block (broadcasting a smaller [src] is not modelled and counts
    as the shape error); the values are cast to the dtype of [dst]. *)
Definition setitem (dst : ndarray) (y1 y2 x1 x2 : Z) (src : ndarray) : option ndarray :=
  let '(h, w, c) := arr_shape dst in
  let ya := slice_index y1 h in
  let yb := slice_index y2 h in
  let xa := slice_index x1 w in
  let xb := slice_index x2 w in
  if decide (arr_shape src = (Z.max 0 (yb - ya), Z.max 0 (xb - xa), c)) then
    Some {| arr_dtype := arr_dtype dst; arr_shape := arr_shape dst;
            arr_at := λ y x k,
              if in_slice ya yb y && in_slice xa xb x
              then astype (arr_dtype dst) (arr_at src (y - ya) (x - xa) k)
              else arr_at dst y x k |}
  else None.



End Arrays.

Arguments scalar : clear implicits.
Arguments ndarray : clear implicits.

End Numpy.

(** ** MosaicPipeline *)
Module Mosaic.
Import Numpy.

(** The element type of a bounding-box array and its [+] with a Python
    integer (numpy's elementwise [array + int]). *)
Class CoordOps (coord : Type) := coord_add : coord → Z → coord.

Section Compositor.
Context {float : Type} `{!FloatOps float}.
Context {coord : Type} `{!CoordOps coord}.

(** A bounding-box array: N rows of coordinates [x1, y1, x2, y2]. *)
Abbreviation bbox_array := (list (list coord)).

(** The [results] dict of a sample, with the keys the compositor touches.
    A key that is absent is [None]; the image arrays and the box arrays are
    the entries under the names listed in [img_fields] and [bbox_fields];
    [pad_shape] is the shape tuple (H, W, C) the pad transform stored.  The
    arrays under different keys and of different tiles are different
    objects, as the transforms of the pipeline leave them: the shift of a box
    array in place is a new value under its key. *)
Record Results := {
  img_fields : option (list string);
  bbox_fields : option (list string);
  pad_shape : option (Z * Z * Z);
  img_shape : option (Z * Z * Z);
  ori_shape : option (Z * Z * Z);
  gt_labels : option (list Z);
  imgs : gmap string (ndarray float);
  bboxes : gmap string bbox_array
}.

(** [results.get(key, [])] *)
Definition get_fields (o : option (list string)) : list string := default [] o.

Definition set_bboxes (r : Results) (key : string) (b : bbox_array) : Results :=
  {| img_fields := img_fields r; bbox_fields := bbox_fields r;
     pad_shape := pad_shape r; img_shape := img_shape r;
     ori_shape := ori_shape r; gt_labels := gt_labels r;
     imgs := imgs r; bboxes := <[key := b]> (bboxes r) |}.

(** The dataset the sample came from: its length and the loading of one
    entry ([data_infos], [get_ann_info], [proposals], [pre_pipeline]). *)
Record Dataset := {
  dataset_len : nat;
  dataset_load : nat → option Results
}.

(** [b[:, start::2] = b[:, start::2] + d] *)
Definition strided (start j : nat) : bool :=
  (start <=? j)%nat && Nat.even (j - start).

Definition add_columns (start : nat) (d : Z) (b : bbox_array) : bbox_array :=
  (λ row, imap (λ j v, if strided start j then coord_add v d else v) row) <$> b.

(** Lines 371-378: where tile [i] goes, as (x1, y1, x2, y2).  There are four
    tiles ([__call__] builds the list): no other index is met. *)
Definition placement (i : nat) (xc yc h w : Z) : option (Z * Z * Z * Z) :=
  match i with
  | 0%nat => Some (xc - w, yc - h, xc, yc)
  | 1%nat => Some (xc, yc - h, xc + w, yc)
  | 2%nat => Some (xc - w, yc, xc, yc + h)
  | 3%nat => Some (xc, yc, xc + w, yc + h)
  | _ => None
  end.

(** Lines 380-381, for one key. *)
Definition paste_img (results : Results) (y1 y2 x1 x2 : Z)
    (canvas : gmap string (ndarray float)) (key : string)
    : option (gmap string (ndarray float)) :=
  dst ← canvas !! key;
  src ← imgs results !! key;
  new ← setitem dst y1 y2 x1 x2 src;
  Some (<[key := new]> canvas).

(** Lines 383-387, for one key. *)
Definition shift_bboxes (x1 y1 : Z) (results : Results) (key : string)
    : option Results :=
  b ← bboxes results !! key;
  Some (set_bboxes results key (add_columns 1 y1 (add_columns 0 x1 b))).

(** Lines 368-387: the body of the loop over the tiles.  The state is the
    canvas and the tiles already done. *)
Definition place_tile (keys : list string) (xc yc : Z)
    (st : gmap string (ndarray float) * list Results)
    (it : nat * Results) : option (gmap string (ndarray float) * list Results) :=
  let '(canvas, done) := st in
  let '(i, results) := it in
  '(h, w, _) ← pad_shape results;
  '(x1, y1, x2, y2) ← placement i xc yc h w;
  canvas' ← foldM (paste_img results y1 y2 x1 x2) canvas keys;
  results' ← foldM (shift_bboxes x1 y1) results (get_fields (bbox_fields results));
  Some (canvas', done ++ [results']).

Definition enumerate {A : Type} (l : list A) : list (nat * A) := imap pair l.

(** Lines 357-403: the composition of the four tiles that came out of the
    individual pipeline. *)
Definition compose (pad_val : scalar float) (input_results : Results)
    (mosaic_results : list Results) : option Results :=
  shapes ← forM pad_shape mosaic_results;
  '(h0, w0, c0) ← shapes !! 0%nat;
  '(h1, w1, _) ← shapes !! 1%nat;
  '(h2, w2, _) ← shapes !! 2%nat;
  '(h3, w3, _) ← shapes !! 3%nat;
  let yc := Z.max h0 h1 in
  let xc := Z.max w0 w2 in
  let canvas_height := yc + Z.max h2 h3 in
  let canvas_width := xc + Z.max w1 w3 in
  let canvas_shape := (canvas_height, canvas_width, c0) in
  first ← mosaic_results !! 0%nat;
  let keys := get_fields (img_fields first) in
  canvas ← foldM (λ cv key, a ← full canvas_shape pad_val uint8; Some (<[key := a]> cv))
                 ∅ keys;
  '(canvas, tiles) ← foldM (place_tile keys xc yc) (canvas, []) (enumerate mosaic_results);
  first' ← tiles !! 0%nat;
  let out_img_fields := get_fields (img_fields first') in
  let out_bbox_fields := get_fields (bbox_fields first') in
  out_imgs ← foldM (λ m key, a ← canvas !! key; Some (<[key := a]> m))
                   (imgs input_results) out_img_fields;
  out_bboxes ← foldM (λ m key, bs ← forM (λ r, bboxes r !! key) tiles;
                               Some (<[key := concat bs]> m))
                     (bboxes input_results) out_bbox_fields;
  labels ← forM gt_labels tiles;
  Some {| img_fields := Some out_img_fields;
          bbox_fields := Some out_bbox_fields;
          pad_shape := pad_shape input_results;
          img_shape := Some canvas_shape;
          ori_shape := Some canvas_shape;
          gt_labels := Some (concat labels);
          imgs := out_imgs;
          bboxes := out_bboxes |}.

(** Lines 339-355: [__call__].  [draws] are the three results of
    [random.randint(0, len(dataset) - 1)]; the individual pipeline is the
    composed transform of the configuration. *)
Definition __call__ (individual_pipeline : Results → option Results)
    (pad_val : scalar float) (dataset : Dataset) (draws : nat * nat * nat)
    (results : Results) : option Results :=
  let input_results := results in
  let '(d1, d2, d3) := draws in
  others ← forM (λ idx, if decide (idx < dataset_len dataset)%nat
                        then dataset_load dataset idx else None) [d1; d2; d3];
  mosaic_results ← forM individual_pipeline (results :: others);
  compose pad_val input_results mosaic_results.

(** *** The boxes *)

(** What the claim calls the shift of a box by an origin: the x-coordinates
    (even columns) move by [x1], the y-coordinates (odd columns) by [y1]. *)
Definition offset_box (x1 y1 : Z) (box : list coord) : list coord :=
  imap (λ j v, if Nat.even j then coord_add v x1 else coord_add v y1) box.

Definition occurrences (key : string) (keys : list string) : nat :=
  length (filter (λ k, k = key) keys).

Lemma occurrences_absent key keys : key ∉ keys → occurrences key keys = 0%nat.
Proof.
  unfold occurrences. induction keys as [|k ks IH]; intros Hnin; [done|].
  apply not_elem_of_cons in Hnin as [Hne Hnin].
  rewrite filter_cons, decide_False by done. by apply IH.
Qed.

Lemma occurrences_once key keys :
  NoDup keys → key ∈ keys → occurrences key keys = 1%nat.
Proof.
  induction 1 as [|k ks Hk Hnd IH]; intros Hin.
  - by apply elem_of_nil in Hin.
  - unfold occurrences. rewrite filter_cons.
    destruct (decide (k = key)) as [->|Hne].
    + simpl. f_equal. by apply occurrences_absent.
    + apply elem_of_cons in Hin as [->|Hin]; [done|]. by apply IH.
Qed.

Lemma strided_0 j : strided 0 j = Nat.even j.
Proof. unfold strided. by rewrite Nat.sub_0_r. Qed.

Lemma strided_1 j : strided 1 j = Nat.odd j.
Proof.
  unfold strided. destruct j as [|j]; [done|].
  simpl. rewrite Nat.sub_0_r. by rewrite Nat.odd_succ.
Qed.

Lemma imap_imap {A B C : Type} (f : nat → B → C) (g : nat → A → B) (l : list A) :
  imap f (imap g l) = imap (λ j v, f j (g j v)) l.
Proof.
  revert f g. induction l as [|a l IH]; intros f g; [done|].
  simpl. f_equal. apply IH.
Qed.

(** The two slice assignments of lines 385-386 together shift every box. *)
Lemma add_columns_offset x1 y1 (b : bbox_array) :
  add_columns 1 y1 (add_columns 0 x1 b) = offset_box x1 y1 <$> b.
Proof.
  unfold add_columns. rewrite <- list_fmap_compose.
  apply list_fmap_ext. intros _ row _. simpl.
  rewrite imap_imap. apply imap_ext. intros j v _. simpl.
  rewrite strided_0, strided_1, <- Nat.negb_even.
  by destruct (Nat.even j).
Qed.

Lemma shift_bboxes_frame x1 y1 r key r' :
  shift_bboxes x1 y1 r key = Some r' →
  img_fields r' = img_fields r ∧ bbox_fields r' = bbox_fields r ∧
  pad_shape r' = pad_shape r ∧ gt_labels r' = gt_labels r ∧ imgs r' = imgs r.
Proof.
  unfold shift_bboxes. intros H.
  destruct (bboxes r !! key); simplify_eq/=. done.
Qed.

Lemma shift_fold_frame x1 y1 keys : ∀ r r',
  foldM (shift_bboxes x1 y1) r keys = Some r' →
  img_fields r' = img_fields r ∧ bbox_fields r' = bbox_fields r ∧
  pad_shape r' = pad_shape r ∧ gt_labels r' = gt_labels r ∧ imgs r' = imgs r.
Proof.
  induction keys as [|k ks IH]; intros r r' H; simplify_eq/=; [done|].
  destruct (shift_bboxes x1 y1 r k) as [r1|] eqn:E; simplify_eq/=.
  apply shift_bboxes_frame in E as (?&?&?&?&?).
  apply IH in H as (?&?&?&?&?). repeat split; congruence.
Qed.

(** A key that is listed [n] times has its array shifted [n] times. *)
Lemma shift_fold_bboxes x1 y1 keys : ∀ r r' key,
  foldM (shift_bboxes x1 y1) r keys = Some r' →
  bboxes r' !! key
  = Nat.iter (occurrences key keys) (fmap (offset_box x1 y1)) <$> bboxes r !! key.
Proof.
  induction keys as [|k ks IH]; intros r r' key H; simpl in H.
  - injection H as <-. by destruct (bboxes r !! key).
  - destruct (shift_bboxes x1 y1 r k) as [r1|] eqn:E; simpl in H; [|done].
    rewrite (IH _ _ key H). unfold shift_bboxes in E.
    destruct (bboxes r !! k) as [b|] eqn:Eb; simplify_eq/=.
    unfold occurrences. rewrite filter_cons. destruct (decide (k = key)) as [->|Hne].
    + simpl. rewrite lookup_insert_eq, Eb. simpl. f_equal.
      rewrite add_columns_offset. symmetry. apply Nat.iter_succ_r.
    + simpl. by rewrite lookup_insert_ne.
Qed.

(** *** The canvas *)

(** The block of a [shape]d array that [y1:y2, x1:x2] selects, as
    (ya, yb, xa, xb). *)
Definition block (shape : Z * Z * Z) (p : Z * Z * Z * Z) : Z * Z * Z * Z :=
  let '(h, w, _) := shape in
  let '(x1, y1, x2, y2) := p in
  (slice_index y1 h, slice_index y2 h, slice_index x1 w, slice_index x2 w).

Definition covers (blk : Z * Z * Z * Z) (y x : Z) : bool :=
  let '(ya, yb, xa, xb) := blk in in_slice ya yb y && in_slice xa xb x.

(** The entries of an array after [src] was written over the block [blk]
    of an array of dtype [d] with entries [base]. *)
Definition layer (d : dtype) (blk : Z * Z * Z * Z) (src : ndarray float)
    (base : Z → Z → Z → scalar float) : Z → Z → Z → scalar float :=
  λ y x k,
    if covers blk y x
    then astype d (arr_at src (y - blk.1.1.1) (x - blk.1.2) k)
    else base y x k.

Definition pasted (dst : ndarray float) (p : Z * Z * Z * Z) (src new : ndarray float) : Prop :=
  arr_dtype new = arr_dtype dst ∧ arr_shape new = arr_shape dst ∧
  ∀ y x k, arr_at new y x k
           = layer (arr_dtype dst) (block (arr_shape dst) p) src (arr_at dst) y x k.

Lemma setitem_pasted dst y1 y2 x1 x2 src new :
  setitem dst y1 y2 x1 x2 src = Some new → pasted dst (x1, y1, x2, y2) src new.
Proof.
  unfold setitem, pasted, layer, block, covers.
  destruct (arr_shape dst) as [[h w] c] eqn:Es.
  case_decide; [|done]. intros [= <-]. simpl. rewrite ?Es. done.
Qed.

Lemma pasted_again dst p src new new' :
  pasted dst p src new → pasted new p src new' → pasted dst p src new'.
Proof.
  intros (Hd & Hs & Hat) (Hd' & Hs' & Hat').
  split; [congruence|]. split; [congruence|].
  intros y x k. rewrite Hat', Hs, Hd. unfold layer.
  destruct (covers _ y x) eqn:Ec; [done|].
  rewrite Hat. unfold layer. by rewrite Ec.
Qed.

Lemma paste_fold r y1 y2 x1 x2 keys : ∀ cv cv' key,
  foldM (paste_img r y1 y2 x1 x2) cv keys = Some cv' →
  (key ∉ keys → cv' !! key = cv !! key) ∧
  (key ∈ keys → ∃ dst src new,
      cv !! key = Some dst ∧ imgs r !! key = Some src ∧
      cv' !! key = Some new ∧ pasted dst (x1, y1, x2, y2) src new).
Proof.
  induction keys as [|k ks IH]; intros cv cv' key H; simpl in H.
  - injection H as <-. split; [done|]. intros Hin. by apply elem_of_nil in Hin.
  - destruct (paste_img r y1 y2 x1 x2 cv k) as [cv1|] eqn:E; simpl in H; [|done].
    unfold paste_img in E.
    destruct (cv !! k) as [dst|] eqn:Edst; simpl in E; [|done].
    destruct (imgs r !! k) as [src|] eqn:Esrc; simpl in E; [|done].
    destruct (setitem dst y1 y2 x1 x2 src) as [new|] eqn:Eset; simpl in E; [|done].
    injection E as <-. apply setitem_pasted in Eset.
    destruct (IH _ _ key H) as [IHout IHin].
    destruct (decide (key = k)) as [->|Hne].
    + split; [intros Hnin; by apply not_elem_of_cons in Hnin as [? _]|].
      intros _. exists dst, src.
      destruct (decide (k ∈ ks)) as [Hin|Hnin].
      * destruct (IHin Hin) as (dst1 & src1 & new1 & Hl & Hsrc & Hl' & Hp).
        rewrite lookup_insert_eq in Hl. injection Hl as <-.
        rewrite Esrc in Hsrc. injection Hsrc as <-.
        exists new1. do 3 (split; [done|]). by eapply pasted_again.
      * exists new. rewrite (IHout Hnin), lookup_insert_eq. done.
    + rewrite lookup_insert_ne in IHout, IHin by done. split.
      * intros Hnin. apply not_elem_of_cons in Hnin as [_ Hnin]. by apply IHout.
      * intros Hin. apply elem_of_cons in Hin as [?|Hin]; [done|]. by apply IHin.
Qed.

(** Lines 365-367: one fresh uint8 array per image key. *)
Lemma canvas_fold shape pad_val keys : ∀ (cv cv' : gmap string (ndarray float)) key,
  foldM (λ cv key, a ← full shape pad_val uint8; Some (<[key := a]> cv)) cv keys
  = Some cv' →
  (key ∉ keys → cv' !! key = cv !! key) ∧
  (key ∈ keys → ∃ a, full shape pad_val uint8 = Some a ∧ cv' !! key = Some a).
Proof.
  induction keys as [|k ks IH]; intros cv cv' key H; simpl in H.
  - injection H as <-. split; [done|]. intros Hin. by apply elem_of_nil in Hin.
  - destruct (full shape pad_val uint8) as [a|] eqn:Ea; simpl in H; [|done].
    destruct (IH _ _ key H) as [IHout IHin].
    destruct (decide (key = k)) as [->|Hne].
    + split; [intros Hnin; by apply not_elem_of_cons in Hnin as [? _]|].
      intros _. exists a. split; [done|].
      destruct (decide (k ∈ ks)) as [Hin|Hnin].
      * destruct (IHin Hin) as (a' & Ha' & ->). congruence.
      * by rewrite (IHout Hnin), lookup_insert_eq.
    + rewrite lookup_insert_ne in IHout by done. split.
      * intros Hnin. apply not_elem_of_cons in Hnin as [_ Hnin]. by apply IHout.
      * intros Hin. apply elem_of_cons in Hin as [?|Hin]; [done|]. by apply IHin.
Qed.

Lemma full_spec shape pad_val d a :
  full shape pad_val d = Some a →
  arr_dtype a = d ∧ arr_shape a = shape ∧ ∀ y x k, arr_at a y x k = astype d pad_val.
Proof.
  unfold full. destruct shape as [[h w] c]. case_decide; [|done].
  intros [= <-]. done.
Qed.

(** Lines 392-393: the canvas arrays go to the output. *)
Lemma output_imgs_fold (canvas : gmap string (ndarray float)) keys :
  ∀ (m m' : gmap string (ndarray float)) key,
  foldM (λ m key, a ← canvas !! key; Some (<[key := a]> m)) m keys = Some m' →
  (key ∉ keys → m' !! key = m !! key) ∧
  (key ∈ keys → is_Some (canvas !! key) ∧ m' !! key = canvas !! key).
Proof.
  induction keys as [|k ks IH]; intros m m' key H; simpl in H.
  - injection H as <-. split; [done|]. intros Hin. by apply elem_of_nil in Hin.
  - destruct (canvas !! k) as [a|] eqn:Ea; simpl in H; [|done].
    destruct (IH _ _ key H) as [IHout IHin].
    destruct (decide (key = k)) as [->|Hne].
    + split; [intros Hnin; by apply not_elem_of_cons in Hnin as [? _]|].
      intros _. rewrite Ea. split; [by eexists|].
      destruct (decide (k ∈ ks)) as [Hin|Hnin].
      * destruct (IHin Hin) as [_ ->]. done.
      * by rewrite (IHout Hnin), lookup_insert_eq.
    + rewrite lookup_insert_ne in IHout by done. split.
      * intros Hnin. apply not_elem_of_cons in Hnin as [_ Hnin]. by apply IHout.
      * intros Hin. apply elem_of_cons in Hin as [?|Hin]; [done|]. by apply IHin.
Qed.

(** Lines 395-396: the box arrays of the tiles, concatenated per key. *)
Lemma output_bboxes_fold (tiles : list Results) keys :
  ∀ (m m' : gmap string bbox_array) key,
  foldM (λ m key, bs ← forM (λ r, bboxes r !! key) tiles;
                  Some (<[key := concat bs]> m)) m keys = Some m' →
  (key ∉ keys → m' !! key = m !! key) ∧
  (key ∈ keys → ∃ bs, forM (λ r, bboxes r !! key) tiles = Some bs ∧
                      m' !! key = Some (concat bs)).
Proof.
  induction keys as [|k ks IH]; intros m m' key H; simpl in H.
  - injection H as <-. split; [done|]. intros Hin. by apply elem_of_nil in Hin.
  - destruct (forM (λ r, bboxes r !! k) tiles) as [bs|] eqn:Ea; simpl in H; [|done].
    destruct (IH _ _ key H) as [IHout IHin].
    destruct (decide (key = k)) as [->|Hne].
    + split; [intros Hnin; by apply not_elem_of_cons in Hnin as [? _]|].
      intros _. exists bs. split; [done|].
      destruct (decide (k ∈ ks)) as [Hin|Hnin].
      * destruct (IHin Hin) as (bs' & Hbs' & ->). congruence.
      * by rewrite (IHout Hnin), lookup_insert_eq.
    + rewrite lookup_insert_ne in IHout by done. split.
      * intros Hnin. apply not_elem_of_cons in Hnin as [_ Hnin]. by apply IHout.
      * intros Hin. apply elem_of_cons in Hin as [?|Hin]; [done|]. by apply IHin.
Qed.

Lemma place_tile_inv keys xc yc cv done i r st' :
  place_tile keys xc yc (cv, done) (i, r) = Some st' →
  ∃ h w c x1 y1 x2 y2 cv' r',
    pad_shape r = Some (h, w, c) ∧
    placement i xc yc h w = Some (x1, y1, x2, y2) ∧
    foldM (paste_img r y1 y2 x1 x2) cv keys = Some cv' ∧
    foldM (shift_bboxes x1 y1) r (get_fields (bbox_fields r)) = Some r' ∧
    st' = (cv', done ++ [r']).
Proof.
  unfold place_tile. intros H.
  destruct (pad_shape r) as [[[h w] c]|]; simpl in H; [|done].
  destruct (placement i xc yc h w) as [[[[x1 y1] x2] y2]|] eqn:Ep; simpl in H; [|done].
  destruct (foldM (paste_img r y1 y2 x1 x2) cv keys) as [cv'|] eqn:Ec; simpl in H; [|done].
  destruct (foldM (shift_bboxes x1 y1) r _) as [r'|] eqn:Es; simpl in H; [|done].
  injection H as <-. by exists h, w, c, x1, y1, x2, y2, cv', r'.
Qed.

(** Everything a successful composition of four tiles went through. *)
Inductive composition (pad_val : scalar float) (input t0 t1 t2 t3 out : Results) : Prop :=
| Composition (h0 w0 c0 h1 w1 c1 h2 w2 c2 h3 w3 c3 : Z)
    (cv0 cv1 cv2 cv3 cv4 : gmap string (ndarray float))
    (t0' t1' t2' t3' : Results) (l0 l1 l2 l3 : list Z) :
    let yc := Z.max h0 h1 in
    let xc := Z.max w0 w2 in
    let shape := (yc + Z.max h2 h3, xc + Z.max w1 w3, c0) in
    let keys := get_fields (img_fields t0) in
    pad_shape t0 = Some (h0, w0, c0) →
    pad_shape t1 = Some (h1, w1, c1) →
    pad_shape t2 = Some (h2, w2, c2) →
    pad_shape t3 = Some (h3, w3, c3) →
    foldM (λ cv key, a ← full shape pad_val uint8; Some (<[key := a]> cv)) ∅ keys
      = Some cv0 →
    foldM (paste_img t0 (yc - h0) yc (xc - w0) xc) cv0 keys = Some cv1 →
    foldM (paste_img t1 (yc - h1) yc xc (xc + w1)) cv1 keys = Some cv2 →
    foldM (paste_img t2 yc (yc + h2) (xc - w2) xc) cv2 keys = Some cv3 →
    foldM (paste_img t3 yc (yc + h3) xc (xc + w3)) cv3 keys = Some cv4 →
    foldM (shift_bboxes (xc - w0) (yc - h0)) t0 (get_fields (bbox_fields t0)) = Some t0' →
    foldM (shift_bboxes xc (yc - h1)) t1 (get_fields (bbox_fields t1)) = Some t1' →
    foldM (shift_bboxes (xc - w2) yc) t2 (get_fields (bbox_fields t2)) = Some t2' →
    foldM (shift_bboxes xc yc) t3 (get_fields (bbox_fields t3)) = Some t3' →
    foldM (λ m key, a ← cv4 !! key; Some (<[key := a]> m)) (imgs input) keys
      = Some (imgs out) →
    foldM (λ m key, bs ← forM (λ r, bboxes r !! key) [t0'; t1'; t2'; t3'];
                    Some (<[key := concat bs]> m))
          (bboxes input) (get_fields (bbox_fields t0)) = Some (bboxes out) →
    gt_labels t0 = Some l0 → gt_labels t1 = Some l1 →
    gt_labels t2 = Some l2 → gt_labels t3 = Some l3 →
    gt_labels out = Some (l0 ++ l1 ++ l2 ++ l3) →
    img_fields out = Some keys →
    bbox_fields out = Some (get_fields (bbox_fields t0)) →
    img_shape out = Some shape →
    ori_shape out = Some shape →
    composition pad_val input t0 t1 t2 t3 out.

Arguments full : simpl never.
Arguments place_tile : simpl never.
Arguments compose : simpl never.

Lemma compose_inv pad_val input t0 t1 t2 t3 out :
  compose pad_val input [t0; t1; t2; t3] = Some out →
  composition pad_val input t0 t1 t2 t3 out.
Proof.
  unfold compose. intros H. simpl in H.
  destruct (pad_shape t0) as [[[h0 w0] c0]|] eqn:E0; simpl in H; [|done].
  destruct (pad_shape t1) as [[[h1 w1] c1]|] eqn:E1; simpl in H; [|done].
  destruct (pad_shape t2) as [[[h2 w2] c2]|] eqn:E2; simpl in H; [|done].
  destruct (pad_shape t3) as [[[h3 w3] c3]|] eqn:E3; simpl in H; [|done].
  destruct (foldM _ ∅ _) as [cv0|] eqn:Ecv0; simpl in H; [|done].
  destruct (place_tile _ _ _ (cv0, []) _) as [st1|] eqn:P0; simpl in H; [|done].
  apply place_tile_inv in P0
    as (h & w & c & x1 & y1 & x2 & y2 & cv1 & t0' & Hp & Hpl & Hcv1 & Ht0 & ->).
  rewrite E0 in Hp. injection Hp as <- <- <-. injection Hpl as <- <- <- <-.
  destruct (place_tile _ _ _ (cv1, _) _) as [st2|] eqn:P1; simpl in H; [|done].
  apply place_tile_inv in P1
    as (h & w & c & x1 & y1 & x2 & y2 & cv2 & t1' & Hp & Hpl & Hcv2 & Ht1 & ->).
  rewrite E1 in Hp. injection Hp as <- <- <-. injection Hpl as <- <- <- <-.
  destruct (place_tile _ _ _ (cv2, _) _) as [st3|] eqn:P2; simpl in H; [|done].
  apply place_tile_inv in P2
    as (h & w & c & x1 & y1 & x2 & y2 & cv3 & t2' & Hp & Hpl & Hcv3 & Ht2 & ->).
  rewrite E2 in Hp. injection Hp as <- <- <-. injection Hpl as <- <- <- <-.
  destruct (place_tile _ _ _ (cv3, _) _) as [st4|] eqn:P3; simpl in H; [|done].
  apply place_tile_inv in P3
    as (h & w & c & x1 & y1 & x2 & y2 & cv4 & t3' & Hp & Hpl & Hcv4 & Ht3 & ->).
  rewrite E3 in Hp. injection Hp as <- <- <-. injection Hpl as <- <- <- <-.
  simpl in H.
  pose proof (shift_fold_frame _ _ _ _ _ Ht0) as (Hif0 & Hbf0 & _ & Hl0 & _).
  pose proof (shift_fold_frame _ _ _ _ _ Ht1) as (_ & _ & _ & Hl1 & _).
  pose proof (shift_fold_frame _ _ _ _ _ Ht2) as (_ & _ & _ & Hl2 & _).
  pose proof (shift_fold_frame _ _ _ _ _ Ht3) as (_ & _ & _ & Hl3 & _).
  rewrite Hif0, Hbf0, Hl0, Hl1, Hl2, Hl3 in H.
  destruct (foldM _ (imgs input) _) as [oi|] eqn:Eoi; simpl in H; [|done].
  destruct (foldM _ (bboxes input) _) as [ob|] eqn:Eob; simpl in H; [|done].
  destruct (gt_labels t0) as [l0|] eqn:L0; simpl in H; [|done].
  destruct (gt_labels t1) as [l1|] eqn:L1; simpl in H; [|done].
  destruct (gt_labels t2) as [l2|] eqn:L2; simpl in H; [|done].
  destruct (gt_labels t3) as [l3|] eqn:L3; simpl in H; [|done].
  injection H as <-.
  eapply (Composition _ _ _ _ _ _ _ h0 w0 c0 h1 w1 c1 h2 w2 c2 h3 w3 c3
            cv0 cv1 cv2 cv3 cv4 t0' t1' t2' t3' l0 l1 l2 l3); simpl; try done.
  by rewrite app_nil_r.
Qed.

Lemma layer_ext d blk src base base' y x k :
  (∀ y x k, base y x k = base' y x k) →
  layer d blk src base y x k = layer d blk src base' y x k.
Proof. intros Hb. unfold layer. by destruct (covers blk y x). Qed.

(** One more tile on a canvas array whose entries are known. *)
Lemma paste_fold_entries r y1 y2 x1 x2 keys cv cv' key a shape entries :
  foldM (paste_img r y1 y2 x1 x2) cv keys = Some cv' →
  key ∈ keys →
  cv !! key = Some a → arr_dtype a = uint8 → arr_shape a = shape →
  (∀ y x k, arr_at a y x k = entries y x k) →
  ∃ src a', imgs r !! key = Some src ∧ cv' !! key = Some a' ∧
    arr_dtype a' = uint8 ∧ arr_shape a' = shape ∧
    ∀ y x k, arr_at a' y x k
             = layer uint8 (block shape (x1, y1, x2, y2)) src entries y x k.
Proof.
  intros Hfold Hin Ha Hd Hs Hat.
  destruct (paste_fold _ _ _ _ _ _ _ _ key Hfold) as [_ Hp].
  destruct (Hp Hin) as (dst & src & new & Hdst & Hsrc & Hnew & Hd' & Hs' & Hat').
  rewrite Ha in Hdst. injection Hdst as <-.
  exists src, new. do 2 (split; [done|]).
  split; [congruence|]. split; [congruence|].
  intros y x k. rewrite Hat', Hd, Hs. by apply layer_ext.
Qed.

(** The image arrays of the output: uint8 arrays of the canvas shape, that
    hold the pad value with the four tiles written over it in turn. *)
Lemma compose_image pad_val input t0 t1 t2 t3 out
    h0 w0 c0 h1 w1 c1 h2 w2 c2 h3 w3 c3 key :
  compose pad_val input [t0; t1; t2; t3] = Some out →
  pad_shape t0 = Some (h0, w0, c0) → pad_shape t1 = Some (h1, w1, c1) →
  pad_shape t2 = Some (h2, w2, c2) → pad_shape t3 = Some (h3, w3, c3) →
  key ∈ get_fields (img_fields t0) →
  let yc := Z.max h0 h1 in
  let xc := Z.max w0 w2 in
  let shape := (yc + Z.max h2 h3, xc + Z.max w1 w3, c0) in
  ∃ a s0 s1 s2 s3,
    imgs t0 !! key = Some s0 ∧ imgs t1 !! key = Some s1 ∧
    imgs t2 !! key = Some s2 ∧ imgs t3 !! key = Some s3 ∧
    imgs out !! key = Some a ∧ arr_dtype a = uint8 ∧ arr_shape a = shape ∧
    ∀ y x k, arr_at a y x k =
      layer uint8 (block shape (xc, yc, xc + w3, yc + h3)) s3
        (layer uint8 (block shape (xc - w2, yc, xc, yc + h2)) s2
          (layer uint8 (block shape (xc, yc - h1, xc + w1, yc)) s1
            (layer uint8 (block shape (xc - w0, yc - h0, xc, yc)) s0
              (λ _ _ _, astype uint8 pad_val)))) y x k.
Proof.
  intros Hc E0 E1 E2 E3 Hin yc xc shape.
  apply compose_inv in Hc.
  destruct Hc as [h0' w0' c0' h1' w1' c1' h2' w2' c2' h3' w3' c3'
                    cv0 cv1 cv2 cv3 cv4 t0' t1' t2' t3' l0 l1 l2 l3
                    yc' xc' shape' keys F0 F1 F2 F3 Hfull P0 P1 P2 P3
                    _ _ _ _ Himgs _ _ _ _ _ _ _ _ _ _].
  rewrite E0 in F0. rewrite E1 in F1. rewrite E2 in F2. rewrite E3 in F3.
  simplify_eq. fold yc xc shape in yc', xc', shape'.
  subst yc' xc' shape' keys.
  destruct (canvas_fold _ _ _ _ _ key Hfull) as [_ Hcv0].
  destruct (Hcv0 Hin) as (a0 & Ha0 & Hl0).
  apply full_spec in Ha0 as (Hd0 & Hs0 & Hat0).
  destruct (paste_fold_entries _ _ _ _ _ _ _ _ _ _ _ _ P0 Hin Hl0 Hd0 Hs0 Hat0)
    as (s0 & a1 & Hsrc0 & Hl1 & Hd1 & Hs1 & Hat1).
  destruct (paste_fold_entries _ _ _ _ _ _ _ _ _ _ _ _ P1 Hin Hl1 Hd1 Hs1 Hat1)
    as (s1 & a2 & Hsrc1 & Hl2 & Hd2 & Hs2 & Hat2).
  destruct (paste_fold_entries _ _ _ _ _ _ _ _ _ _ _ _ P2 Hin Hl2 Hd2 Hs2 Hat2)
    as (s2 & a3 & Hsrc2 & Hl3 & Hd3 & Hs3 & Hat3).
  destruct (paste_fold_entries _ _ _ _ _ _ _ _ _ _ _ _ P3 Hin Hl3 Hd3 Hs3 Hat3)
    as (s3 & a4 & Hsrc3 & Hl4 & Hd4 & Hs4 & Hat4).
  destruct (output_imgs_fold _ _ _ _ key Himgs) as [_ Hout].
  destruct (Hout Hin) as [_ Hout'].
  exists a4, s0, s1, s2, s3. rewrite Hout'. done.
Qed.


Lemma forM_bboxes_4 (key : string) (t0 t1 t2 t3 : Results) bs :
  forM (λ r, bboxes r !! key) [t0; t1; t2; t3] = Some bs →
  ∃ b0 b1 b2 b3, bboxes t0 !! key = Some b0 ∧ bboxes t1 !! key = Some b1 ∧
                 bboxes t2 !! key = Some b2 ∧ bboxes t3 !! key = Some b3 ∧
                 bs = [b0; b1; b2; b3].
Proof.
  simpl. intros H.
  destruct (bboxes t0 !! key) as [b0|]; simpl in H; [|done].
  destruct (bboxes t1 !! key) as [b1|]; simpl in H; [|done].
  destruct (bboxes t2 !! key) as [b2|]; simpl in H; [|done].
  destruct (bboxes t3 !! key) as [b3|]; simpl in H; [|done].
  injection H as <-. by exists b0, b1, b2, b3.
Qed.

Lemma shifted_lookup x1 y1 r r' key b' :
  foldM (shift_bboxes x1 y1) r (get_fields (bbox_fields r)) = Some r' →
  bboxes r' !! key = Some b' →
  ∃ b, bboxes r !! key = Some b ∧
       b' = Nat.iter (occurrences key (get_fields (bbox_fields r)))
                     (fmap (offset_box x1 y1)) b.
Proof.
  intros Hf Hb. rewrite (shift_fold_bboxes _ _ _ _ _ key Hf) in Hb.
  destruct (bboxes r !! key) as [b|]; simpl in Hb; [|done].
  injection Hb as <-. by exists b.
Qed.

(** The box arrays of the output: under every key of [bbox_fields], the
    arrays of the four tiles in the order 0, 1, 2, 3, each shifted by the
    origin of its tile once for every time the tile lists the key. *)
Lemma compose_bboxes pad_val input t0 t1 t2 t3 out
    h0 w0 c0 h1 w1 c1 h2 w2 c2 h3 w3 c3 key :
  compose pad_val input [t0; t1; t2; t3] = Some out →
  pad_shape t0 = Some (h0, w0, c0) → pad_shape t1 = Some (h1, w1, c1) →
  pad_shape t2 = Some (h2, w2, c2) → pad_shape t3 = Some (h3, w3, c3) →
  key ∈ get_fields (bbox_fields t0) →
  let yc := Z.max h0 h1 in
  let xc := Z.max w0 w2 in
  let times t := occurrences key (get_fields (bbox_fields t)) in
  ∃ b0 b1 b2 b3,
    bboxes t0 !! key = Some b0 ∧ bboxes t1 !! key = Some b1 ∧
    bboxes t2 !! key = Some b2 ∧ bboxes t3 !! key = Some b3 ∧
    bboxes out !! key
    = Some (Nat.iter (times t0) (fmap (offset_box (xc - w0) (yc - h0))) b0 ++
            Nat.iter (times t1) (fmap (offset_box xc (yc - h1))) b1 ++
            Nat.iter (times t2) (fmap (offset_box (xc - w2) yc)) b2 ++
            Nat.iter (times t3) (fmap (offset_box xc yc)) b3).
Proof.
  intros Hc E0 E1 E2 E3 Hin yc xc times.
  apply compose_inv in Hc.
  destruct Hc as [h0' w0' c0' h1' w1' c1' h2' w2' c2' h3' w3' c3'
                    cv0 cv1 cv2 cv3 cv4 t0' t1' t2' t3' l0 l1 l2 l3
                    yc' xc' shape' keys F0 F1 F2 F3 _ _ _ _ _
                    S0 S1 S2 S3 _ Hbb _ _ _ _ _ _ _ _ _].
  rewrite E0 in F0. rewrite E1 in F1. rewrite E2 in F2. rewrite E3 in F3.
  simplify_eq. fold yc xc in yc', xc'. subst yc' xc'.
  destruct (output_bboxes_fold _ _ _ _ key Hbb) as [_ Hout].
  destruct (Hout Hin) as (bs & Hbs & Hob).
  apply forM_bboxes_4 in Hbs as (b0' & b1' & b2' & b3' & B0 & B1 & B2 & B3 & ->).
  destruct (shifted_lookup _ _ _ _ _ _ S0 B0) as (b0 & Hb0 & ->).
  destruct (shifted_lookup _ _ _ _ _ _ S1 B1) as (b1 & Hb1 & ->).
  destruct (shifted_lookup _ _ _ _ _ _ S2 B2) as (b2 & Hb2 & ->).
  destruct (shifted_lookup _ _ _ _ _ _ S3 B3) as (b3 & Hb3 & ->).
  exists b0, b1, b2, b3. do 4 (split; [done|]).
  rewrite Hob. simpl. by rewrite app_nil_r.
Qed.

Lemma compose_labels pad_val input t0 t1 t2 t3 out :
  compose pad_val input [t0; t1; t2; t3] = Some out →
  ∃ l0 l1 l2 l3,
    gt_labels t0 = Some l0 ∧ gt_labels t1 = Some l1 ∧
    gt_labels t2 = Some l2 ∧ gt_labels t3 = Some l3 ∧
    gt_labels out = Some (l0 ++ l1 ++ l2 ++ l3).
Proof.
  intros Hc. apply compose_inv in Hc. destruct Hc.
  eexists _, _, _, _. eauto 10.
Qed.

Lemma compose_shape pad_val input t0 t1 t2 t3 out
    h0 w0 c0 h1 w1 c1 h2 w2 c2 h3 w3 c3 :
  compose pad_val input [t0; t1; t2; t3] = Some out →
  pad_shape t0 = Some (h0, w0, c0) → pad_shape t1 = Some (h1, w1, c1) →
  pad_shape t2 = Some (h2, w2, c2) → pad_shape t3 = Some (h3, w3, c3) →
  let shape := (Z.max h0 h1 + Z.max h2 h3, Z.max w0 w2 + Z.max w1 w3, c0) in
  img_shape out = Some shape ∧ ori_shape out = Some shape ∧
  img_fields out = Some (get_fields (img_fields t0)) ∧
  bbox_fields out = Some (get_fields (bbox_fields t0)).
Proof.
  intros Hc E0 E1 E2 E3 shape.
  apply compose_inv in Hc.
  destruct Hc as [h0' w0' c0' h1' w1' c1' h2' w2' c2' h3' w3' c3'
                    cv0 cv1 cv2 cv3 cv4 t0' t1' t2' t3' l0 l1 l2 l3
                    yc' xc' shape' keys F0 F1 F2 F3 _ _ _ _ _
                    _ _ _ _ _ _ _ _ _ _ _ Hif Hbf His Hos].
  rewrite E0 in F0. rewrite E1 in F1. rewrite E2 in F2. rewrite E3 in F3.
  simplify_eq. done.
Qed.


(** *** Blocks that lie inside the canvas *)

Lemma slice_index_inside i len : 0 ≤ i ≤ len → slice_index i len = i.
Proof.
  intros Hi. unfold slice_index.
  destruct (Z.ltb_spec i 0); lia.
Qed.


Lemma layer_miss d h w c x1 y1 x2 y2 src base y x k :
  0 ≤ y1 ≤ h → 0 ≤ y2 ≤ h → 0 ≤ x1 ≤ w → 0 ≤ x2 ≤ w →
  ¬ (y1 ≤ y < y2 ∧ x1 ≤ x < x2) →
  layer d (block (h, w, c) (x1, y1, x2, y2)) src base y x k = base y x k.
Proof.
  intros ?????. unfold layer, block, covers, in_slice. simpl.
  rewrite !slice_index_inside by done.
  destruct (Z.leb_spec y1 y), (Z.ltb_spec y y2), (Z.leb_spec x1 x), (Z.ltb_spec x x2);
    simpl; (done || lia).
Qed.

Lemma iter_fmap {A : Type} (f : A → A) (n : nat) (l : list A) :
  Nat.iter n (fmap f) l = Nat.iter n f <$> l.
Proof.
  induction n as [|n IH]; simpl.
  - by rewrite list_fmap_id.
  - rewrite IH, <- list_fmap_compose. done.
Qed.

Lemma offset_box_4 x1 y1 (a b c d : coord) :
  offset_box x1 y1 [a; b; c; d]
  = [coord_add a x1; coord_add b y1; coord_add c x1; coord_add d y1].
Proof. reflexivity. Qed.

(** *** Compositions that go through *)

Lemma setitem_inside dst src h w c y1 y2 x1 x2 :
  arr_shape dst = (h, w, c) →
  0 ≤ y1 ≤ y2 → y2 ≤ h → 0 ≤ x1 ≤ x2 → x2 ≤ w →
  arr_shape src = (y2 - y1, x2 - x1, c) →
  ∃ new, setitem dst y1 y2 x1 x2 src = Some new ∧ arr_shape new = (h, w, c).
Proof.
  intros Hd Hy Hyh Hx Hxw Hs. unfold setitem. rewrite Hd.
  rewrite !slice_index_inside by lia.
  rewrite decide_True by (rewrite Hs; repeat f_equal; lia).
  eexists. split; [reflexivity|]. done.
Qed.

Lemma paste_fold_succeeds r h w c y1 y2 x1 x2 keys :
  0 ≤ y1 ≤ y2 → y2 ≤ h → 0 ≤ x1 ≤ x2 → x2 ≤ w →
  (∀ key, key ∈ keys →
     ∃ src, imgs r !! key = Some src ∧ arr_shape src = (y2 - y1, x2 - x1, c)) →
  ∀ cv : gmap string (ndarray float),
    (∀ key, key ∈ keys → ∃ a, cv !! key = Some a ∧ arr_shape a = (h, w, c)) →
    ∃ cv', foldM (paste_img r y1 y2 x1 x2) cv keys = Some cv' ∧
           ∀ key, key ∈ keys → ∃ a, cv' !! key = Some a ∧ arr_shape a = (h, w, c).
Proof.
  intros Hy Hyh Hx Hxw Hsrc cv Hcv.
  assert (∃ cv', foldM (paste_img r y1 y2 x1 x2) cv keys = Some cv') as [cv' Hfold].
  { revert cv Hcv. induction keys as [|k ks IH]; intros cv Hcv; [by eexists|].
    destruct (Hcv k) as (a & Ha & Hsa); [left|].
    destruct (Hsrc k) as (src & Hk & Hss); [left|].
    destruct (setitem_inside a src h w c y1 y2 x1 x2) as (new & Hset & Hsn); try done.
    cbn [foldM]. unfold paste_img at 2. rewrite Ha, Hk. cbn [mbind option_bind].
    rewrite Hset. cbn [mbind option_bind]. apply IH.
    - intros key Hin. apply Hsrc. by right.
    - intros key Hin. destruct (decide (key = k)) as [->|Hne].
      + exists new. by rewrite lookup_insert_eq.
      + rewrite lookup_insert_ne by done. apply Hcv. by right. }
  exists cv'. split; [done|].
  intros key Hin.
  destruct (paste_fold _ _ _ _ _ _ _ _ key Hfold) as [_ Hp].
  destruct (Hp Hin) as (dst & src & new & Hdst & _ & Hnew & _ & Hs & _).
  destruct (Hcv key Hin) as (a & Ha & Hsa).
  exists new. split; [done|]. congruence.
Qed.

Lemma shift_fold_succeeds x1 y1 keys : ∀ r,
  (∀ key, key ∈ keys → is_Some (bboxes r !! key)) →
  ∃ r', foldM (shift_bboxes x1 y1) r keys = Some r'.
Proof.
  induction keys as [|k ks IH]; intros r Hr; [by eexists|].
  destruct (Hr k) as [b Hb]; [left|].
  cbn [foldM]. unfold shift_bboxes at 2. rewrite Hb. cbn [mbind option_bind].
  apply IH. intros key Hin. simpl.
  destruct (decide (key = k)) as [->|Hne].
  - rewrite lookup_insert_eq. by eexists.
  - rewrite lookup_insert_ne by done. apply Hr. by right.
Qed.

Lemma place_tile_eq keys xc yc cv done i r h w c x1 y1 x2 y2 cv' r' :
  pad_shape r = Some (h, w, c) →
  placement i xc yc h w = Some (x1, y1, x2, y2) →
  foldM (paste_img r y1 y2 x1 x2) cv keys = Some cv' →
  foldM (shift_bboxes x1 y1) r (get_fields (bbox_fields r)) = Some r' →
  place_tile keys xc yc (cv, done) (i, r) = Some (cv', done ++ [r']).
Proof.
  intros Hp Hpl Hc Hs. unfold place_tile. rewrite Hp. cbn [mbind option_bind].
  rewrite Hpl. cbn [mbind option_bind]. rewrite Hc. cbn [mbind option_bind].
  by rewrite Hs.
Qed.

Lemma canvas_fold_succeeds shape pad_val a keys :
  full shape pad_val uint8 = Some a →
  ∀ cv : gmap string (ndarray float),
    ∃ cv', foldM (λ cv key, a ← full shape pad_val uint8; Some (<[key := a]> cv))
                 cv keys = Some cv'.
Proof.
  intros Ha. induction keys as [|k ks IH]; intros cv; [by eexists|].
  destruct (IH (<[k := a]> cv)) as [cv' Hcv']. exists cv'.
  cbn [foldM]. rewrite Ha in *. exact Hcv'.
Qed.

Lemma output_imgs_succeeds (canvas : gmap string (ndarray float)) keys :
  (∀ key, key ∈ keys → is_Some (canvas !! key)) →
  ∀ m : gmap string (ndarray float),
    ∃ m', foldM (λ m key, a ← canvas !! key; Some (<[key := a]> m)) m keys = Some m'.
Proof.
  induction keys as [|k ks IH]; intros Hk m; [by eexists|].
  destruct (Hk k) as [a Ha]; [left|].
  cbn [foldM]. rewrite Ha. cbn [mbind option_bind].
  apply IH. intros key Hin. apply Hk. by right.
Qed.

Lemma output_bboxes_succeeds (tiles : list Results) keys :
  (∀ key, key ∈ keys → is_Some (forM (λ r, bboxes r !! key) tiles)) →
  ∀ m : gmap string bbox_array,
    ∃ m', foldM (λ m key, bs ← forM (λ r, bboxes r !! key) tiles;
                          Some (<[key := concat bs]> m)) m keys = Some m'.
Proof.
  induction keys as [|k ks IH]; intros Hk m; [by eexists|].
  destruct (Hk k) as [bs Hbs]; [left|].
  cbn [foldM]. rewrite Hbs. cbn [mbind option_bind].
  apply IH. intros key Hin. apply Hk. by right.
Qed.

(** Four tiles whose images have the shape their [pad_shape] tells (and the
    channels of the first tile), with an array under every key they list and
    under every box key of the first tile, and with labels, compose. *)
Lemma compose_succeeds pad_val input t0 t1 t2 t3
    h0 w0 h1 w1 h2 w2 h3 w3 c :
  pad_shape t0 = Some (h0, w0, c) → pad_shape t1 = Some (h1, w1, c) →
  pad_shape t2 = Some (h2, w2, c) → pad_shape t3 = Some (h3, w3, c) →
  0 ≤ c → (0 ≤ h0 ∧ 0 ≤ w0) → (0 ≤ h1 ∧ 0 ≤ w1) → (0 ≤ h2 ∧ 0 ≤ w2) → (0 ≤ h3 ∧ 0 ≤ w3) →
  (∀ t, t ∈ [t0; t1; t2; t3] →
     is_Some (gt_labels t) ∧
     (∀ key, key ∈ get_fields (img_fields t0) →
        ∃ src hw, imgs t !! key = Some src ∧ pad_shape t = Some (hw, c) ∧
                  arr_shape src = (hw, c)) ∧
     (∀ key, key ∈ get_fields (bbox_fields t) → is_Some (bboxes t !! key)) ∧
     (∀ key, key ∈ get_fields (bbox_fields t0) → is_Some (bboxes t !! key))) →
  is_Some (compose pad_val input [t0; t1; t2; t3]).
Proof.
  intros E0 E1 E2 E3 Hc [Hh0 Hw0] [Hh1 Hw1] [Hh2 Hw2] [Hh3 Hw3] Htiles.
  set (yc := Z.max h0 h1). set (xc := Z.max w0 w2).
  set (ch := yc + Z.max h2 h3). set (cw := xc + Z.max w1 w3).
  set (keys := get_fields (img_fields t0)).
  assert (∀ t hw, t ∈ [t0; t1; t2; t3] → pad_shape t = Some (hw, c) →
            ∀ key, key ∈ keys → ∃ src, imgs t !! key = Some src ∧ arr_shape src = (hw, c))
    as Himgs.
  { intros t hw Ht Hp key Hin.
    destruct (Htiles t Ht) as (_ & Hi & _).
    destruct (Hi key Hin) as (src & hw' & Hsrc & Hp' & Hs).
    exists src. split; [done|]. congruence. }
  (* the canvas *)
  destruct (full (ch, cw, c) pad_val uint8) as [a0|] eqn:Efull.
  2:{ unfold full in Efull. rewrite decide_True in Efull by lia. done. }
  assert (∃ cv0, foldM (λ cv key, a ← full (ch, cw, c) pad_val uint8; Some (<[key := a]> cv))
                       (∅ : gmap string (ndarray float)) keys = Some cv0) as [cv0 Hcv0].
  { by apply (canvas_fold_succeeds _ _ a0). }
  assert (∀ key, key ∈ keys → ∃ a, cv0 !! key = Some a ∧ arr_shape a = (ch, cw, c)) as Hinv0.
  { intros key Hin. destruct (canvas_fold _ _ _ _ _ key Hcv0) as [_ Hk].
    destruct (Hk Hin) as (a & Ha & Hl). exists a. split; [done|].
    by apply full_spec in Ha as (_ & ? & _). }
  (* the four tiles *)
  destruct (paste_fold_succeeds t0 ch cw c (yc - h0) yc (xc - w0) xc keys) with (cv := cv0)
    as (cv1 & Hcv1 & Hinv1); try (unfold ch, cw, yc, xc; lia); try done.
  { intros key Hin. replace (yc - (yc - h0)) with h0 by lia.
    replace (xc - (xc - w0)) with w0 by lia.
    apply (Himgs t0 (h0, w0)); [left|done..]. }
  destruct (paste_fold_succeeds t1 ch cw c (yc - h1) yc xc (xc + w1) keys) with (cv := cv1)
    as (cv2 & Hcv2 & Hinv2); try (unfold ch, cw, yc, xc; lia); try done.
  { intros key Hin. replace (yc - (yc - h1)) with h1 by lia.
    replace (xc + w1 - xc) with w1 by lia.
    apply (Himgs t1 (h1, w1)); [right; left|done..]. }
  destruct (paste_fold_succeeds t2 ch cw c yc (yc + h2) (xc - w2) xc keys) with (cv := cv2)
    as (cv3 & Hcv3 & Hinv3); try (unfold ch, cw, yc, xc; lia); try done.
  { intros key Hin. replace (yc + h2 - yc) with h2 by lia.
    replace (xc - (xc - w2)) with w2 by lia.
    apply (Himgs t2 (h2, w2)); [right; right; left|done..]. }
  destruct (paste_fold_succeeds t3 ch cw c yc (yc + h3) xc (xc + w3) keys) with (cv := cv3)
    as (cv4 & Hcv4 & Hinv4); try (unfold ch, cw, yc, xc; lia); try done.
  { intros key Hin. replace (yc + h3 - yc) with h3 by lia.
    replace (xc + w3 - xc) with w3 by lia.
    apply (Himgs t3 (h3, w3)); [right; right; right; left|done..]. }
  destruct (shift_fold_succeeds (xc - w0) (yc - h0) (get_fields (bbox_fields t0)) t0)
    as [t0' S0]; [apply Htiles; left|].
  destruct (shift_fold_succeeds xc (yc - h1) (get_fields (bbox_fields t1)) t1)
    as [t1' S1]; [apply Htiles; right; left|].
  destruct (shift_fold_succeeds (xc - w2) yc (get_fields (bbox_fields t2)) t2)
    as [t2' S2]; [apply Htiles; right; right; left|].
  destruct (shift_fold_succeeds xc yc (get_fields (bbox_fields t3)) t3)
    as [t3' S3]; [apply Htiles; right; right; right; left|].
  pose proof (shift_fold_frame _ _ _ _ _ S0) as (Hif0 & Hbf0 & _ & Hl0 & _).
  pose proof (shift_fold_frame _ _ _ _ _ S1) as (_ & _ & _ & Hl1 & _).
  pose proof (shift_fold_frame _ _ _ _ _ S2) as (_ & _ & _ & Hl2 & _).
  pose proof (shift_fold_frame _ _ _ _ _ S3) as (_ & _ & _ & Hl3 & _).
  (* the output *)
  assert (∃ oi, foldM (λ m key, a ← cv4 !! key; Some (<[key := a]> m))
                      (imgs input) keys = Some oi) as [oi Hoi].
  { apply output_imgs_succeeds. intros key Hin.
    destruct (Hinv4 key Hin) as (a & Ha & _). by eexists. }
  assert (∀ t t' x1 y1 key, t ∈ [t0; t1; t2; t3] →
            foldM (shift_bboxes x1 y1) t (get_fields (bbox_fields t)) = Some t' →
            key ∈ get_fields (bbox_fields t0) → is_Some (bboxes t' !! key)) as Hshifted.
  { intros t t' x1 y1 key Ht Hs Hin.
    rewrite (shift_fold_bboxes _ _ _ _ _ key Hs).
    destruct (Htiles t Ht) as (_ & _ & _ & Hb).
    destruct (Hb key Hin) as [b ->]. by eexists. }
  assert (∃ ob, foldM (λ m key, bs ← forM (λ r, bboxes r !! key) [t0'; t1'; t2'; t3'];
                                Some (<[key := concat bs]> m))
                      (bboxes input) (get_fields (bbox_fields t0)) = Some ob) as [ob Hob].
  { apply output_bboxes_succeeds. intros key Hin.
    {
      destruct (Hshifted t0 t0' _ _ key ltac:(left) S0 Hin) as [b0 B0].
      destruct (Hshifted t1 t1' _ _ key ltac:(right; left) S1 Hin) as [b1 B1].
      destruct (Hshifted t2 t2' _ _ key ltac:(right; right; left) S2 Hin) as [b2 B2].
      destruct (Hshifted t3 t3' _ _ key ltac:(right; right; right; left) S3 Hin) as [b3 B3].
      cbn [forM]. rewrite B0, B1, B2, B3. by eexists. } }
  destruct (Htiles t0) as ([l0 L0] & _); [left|].
  destruct (Htiles t1) as ([l1 L1] & _); [right; left|].
  destruct (Htiles t2) as ([l2 L2] & _); [right; right; left|].
  destruct (Htiles t3) as ([l3 L3] & _); [right; right; right; left|].
  unfold compose. cbn [forM]. rewrite E0, E1, E2, E3. cbn.
  fold yc xc ch cw keys. rewrite Hcv0. cbn [mbind option_bind].
  rewrite (place_tile_eq keys xc yc _ _ 0%nat t0 _ _ _ _ _ _ _ _ _ E0 eq_refl Hcv1 S0).
  cbn [mbind option_bind].
  rewrite (place_tile_eq keys xc yc _ _ 1%nat t1 _ _ _ _ _ _ _ _ _ E1 eq_refl Hcv2 S1).
  cbn [mbind option_bind].
  rewrite (place_tile_eq keys xc yc _ _ 2%nat t2 _ _ _ _ _ _ _ _ _ E2 eq_refl Hcv3 S2).
  cbn [mbind option_bind].
  rewrite (place_tile_eq keys xc yc _ _ 3%nat t3 _ _ _ _ _ _ _ _ _ E3 eq_refl Hcv4 S3).
  cbn [mbind option_bind app lookup list_lookup]. rewrite Hif0, Hbf0. fold keys. rewrite Hoi. cbn [mbind option_bind].
  rewrite Hob. cbn [mbind option_bind].
  cbn [forM]. rewrite Hl0, Hl1, Hl2, Hl3, L0, L1, L2, L3. cbn. by eexists.
Qed.

(** *** The claims on the compositor *)

(** C1: the canvas of every composition of four tiles with pad shapes
    (h0, w0) .. (h3, w3) is [max h0 h1 + max h2 h3] high and
    [max w0 w2 + max w1 w3] wide, whatever the shapes of the tiles: this is
    the shape the output reports as [img_shape] and [ori_shape], and the
    shape of every image array of the output. *)
Theorem canvas_size pad_val input t0 t1 t2 t3 out
    h0 w0 c0 h1 w1 c1 h2 w2 c2 h3 w3 c3 :
  compose pad_val input [t0; t1; t2; t3] = Some out →
  pad_shape t0 = Some (h0, w0, c0) → pad_shape t1 = Some (h1, w1, c1) →
  pad_shape t2 = Some (h2, w2, c2) → pad_shape t3 = Some (h3, w3, c3) →
  let yc := Z.max h0 h1 in
  let xc := Z.max w0 w2 in
  let canvas_height := Z.max h0 h1 + Z.max h2 h3 in
  let canvas_width := Z.max w0 w2 + Z.max w1 w3 in
  canvas_height = yc + Z.max h2 h3 ∧ canvas_width = xc + Z.max w1 w3 ∧
  img_shape out = Some (canvas_height, canvas_width, c0) ∧
  ori_shape out = Some (canvas_height, canvas_width, c0) ∧
  ∀ key, key ∈ get_fields (img_fields out) →
    ∃ a, imgs out !! key = Some a ∧
         arr_shape a = (canvas_height, canvas_width, c0).
Proof.
  intros Hc E0 E1 E2 E3 yc xc ch cw.
  destruct (compose_shape _ _ _ _ _ _ _ _ _ _ _ _ _ _ _ _ _ _ _ Hc E0 E1 E2 E3)
    as (His & Hos & Hif & _).
  do 2 (split; [done|]). do 2 (split; [done|]).
  intros key Hin. rewrite Hif in Hin. simpl in Hin.
  destruct (compose_image _ _ _ _ _ _ _ _ _ _ _ _ _ _ _ _ _ _ _ key Hc E0 E1 E2 E3 Hin)
    as (a & s0 & s1 & s2 & s3 & _ & _ & _ & _ & Ha & _ & Hs & _).
  by exists a.
Qed.


(** C9: when every tile has as many boxes as labels, so has the output; the
    boxes and the labels are concatenated in the same order of the tiles,
    0, 1, 2, 3, and the box and the label at a position of the output are
    the (shifted) box and the label at one position of one tile. *)
Theorem labels_follow_boxes pad_val input t0 t1 t2 t3 out
    h0 w0 c0 h1 w1 c1 h2 w2 c2 h3 w3 c3 key b0 b1 b2 b3 l0 l1 l2 l3 :
  compose pad_val input [t0; t1; t2; t3] = Some out →
  pad_shape t0 = Some (h0, w0, c0) → pad_shape t1 = Some (h1, w1, c1) →
  pad_shape t2 = Some (h2, w2, c2) → pad_shape t3 = Some (h3, w3, c3) →
  key ∈ get_fields (bbox_fields t0) →
  bboxes t0 !! key = Some b0 → bboxes t1 !! key = Some b1 →
  bboxes t2 !! key = Some b2 → bboxes t3 !! key = Some b3 →
  gt_labels t0 = Some l0 → gt_labels t1 = Some l1 →
  gt_labels t2 = Some l2 → gt_labels t3 = Some l3 →
  length b0 = length l0 → length b1 = length l1 →
  length b2 = length l2 → length b3 = length l3 →
  let yc := Z.max h0 h1 in
  let xc := Z.max w0 w2 in
  let times t := occurrences key (get_fields (bbox_fields t)) in
  let f0 := Nat.iter (times t0) (offset_box (xc - w0) (yc - h0)) in
  let f1 := Nat.iter (times t1) (offset_box xc (yc - h1)) in
  let f2 := Nat.iter (times t2) (offset_box (xc - w2) yc) in
  let f3 := Nat.iter (times t3) (offset_box xc yc) in
  ∃ out_boxes out_labels,
    bboxes out !! key = Some out_boxes ∧ gt_labels out = Some out_labels ∧
    length out_labels = length out_boxes ∧
    out_boxes = (f0 <$> b0) ++ (f1 <$> b1) ++ (f2 <$> b2) ++ (f3 <$> b3) ∧
    out_labels = l0 ++ l1 ++ l2 ++ l3 ∧
    zip out_boxes out_labels
    = zip (f0 <$> b0) l0 ++ zip (f1 <$> b1) l1 ++
      zip (f2 <$> b2) l2 ++ zip (f3 <$> b3) l3.
Proof.
  intros Hc E0 E1 E2 E3 Hin B0 B1 B2 B3 L0 L1 L2 L3 N0 N1 N2 N3
         yc xc times f0 f1 f2 f3.
  destruct (compose_bboxes _ _ _ _ _ _ _ _ _ _ _ _ _ _ _ _ _ _ _ key Hc E0 E1 E2 E3 Hin)
    as (b0' & b1' & b2' & b3' & B0' & B1' & B2' & B3' & Hob).
  destruct (compose_labels _ _ _ _ _ _ _ Hc)
    as (l0' & l1' & l2' & l3' & L0' & L1' & L2' & L3' & Hol).
  simplify_eq. rewrite !iter_fmap in Hob.
  fold yc xc times in Hob. fold f0 f1 f2 f3 in Hob.
  eexists _, _. split; [exact Hob|]. split; [exact Hol|].
  split; [rewrite !length_app, !length_fmap; lia|].
  do 2 (split; [done|]).
  rewrite !zip_with_app by (rewrite ?length_fmap; done). done.
Qed.


End Compositor.

Arguments Results : clear implicits.
Arguments Dataset : clear implicits.

(** *** A composition of four tiles of unequal shapes *)

(** Rationals stand for the floats, integers for the coordinates. *)
#[export] Instance Q_float : FloatOps Q :=
  {| float_trunc q := Z.quot (Qnum q) (Z.pos (Qden q)); float_of_int := inject_Z |}.

#[export] Instance Z_coord : CoordOps Z := Z.add.

Definition sample (shape : Z * Z * Z) (img : ndarray Q) (boxes : list (list Z))
    (labels : list Z) : Results Q Z :=
  {| img_fields := Some ["img"%string]; bbox_fields := Some ["gt_bboxes"%string];
     pad_shape := Some shape; img_shape := Some shape; ori_shape := Some shape;
     gt_labels := Some labels;
     imgs := {[ "img"%string := img ]};
     bboxes := {[ "gt_bboxes"%string := boxes ]} |}.

Definition image (d : dtype) (shape : Z * Z * Z) (f : Z → Z → Z → scalar Q) : ndarray Q :=
  {| arr_dtype := d; arr_shape := shape; arr_at := f |}.

(** 2×3, uint8 *)
Definition tile0 : Results Q Z :=
  sample (2, 3, 3) (image uint8 (2, 3, 3) (λ y x _, SInt (10 * y + x)))
         [[0; 0; 2; 1]] [7].
(** 3×2, float32 *)
Definition tile1 : Results Q Z :=
  sample (3, 2, 3) (image float32 (3, 2, 3) (λ y x _, SFloat (2597 # 10)))
         [[1; 1; 2; 3]; [0; 0; 1; 1]] [1; 2].
(** 1×4, int64, no box *)
Definition tile2 : Results Q Z :=
  sample (1, 4, 3) (image int64 (1, 4, 3) (λ y x _, SInt (300 + x))) [] [].
(** 2×2, uint8 *)
Definition tile3 : Results Q Z :=
  sample (2, 2, 3) (image uint8 (2, 2, 3) (λ y x _, SInt 9)) [[0; 0; 2; 2]] [5].

(** The centre sample before the individual pipeline. *)
Definition raw_sample : Results Q Z :=
  {| img_fields := None; bbox_fields := Some []; pad_shape := None;
     img_shape := None; ori_shape := None; gt_labels := None;
     imgs := ∅; bboxes := ∅ |}.

Definition mosaic_of_tiles : option (Results Q Z) :=
  compose (SInt 114) raw_sample [tile0; tile1; tile2; tile3].

Example mosaic_shape : img_shape <$> mosaic_of_tiles = Some (Some (5, 6, 3)).
Proof. vm_compute. reflexivity. Qed.

Example mosaic_boxes :
  (λ r, bboxes r !! "gt_bboxes"%string) <$> mosaic_of_tiles
  = Some (Some [[1; 1; 3; 2]; [5; 1; 6; 3]; [4; 0; 5; 1]; [4; 3; 6; 5]]).
Proof. vm_compute. reflexivity. Qed.

Example mosaic_labels : gt_labels <$> mosaic_of_tiles = Some (Some [7; 1; 2; 5]).
Proof. vm_compute. reflexivity. Qed.

(** The pad value, a uint8 entry, a truncated float and a wrapped int64. *)
Example mosaic_pixels :
  (λ r, (λ a, [arr_at a 0 0 0; arr_at a 2 3 0; arr_at a 0 4 0; arr_at a 3 1 0])
        <$> imgs r !! "img"%string) <$> mosaic_of_tiles
  = Some (Some [SInt 114; SInt 12; SInt 3; SInt 45]).
Proof. vm_compute. reflexivity. Qed.

Definition mosaic_out : Results Q Z := default raw_sample mosaic_of_tiles.

Lemma mosaic_composed :
  compose (SInt 114) raw_sample [tile0; tile1; tile2; tile3] = Some mosaic_out.
Proof. vm_compute. reflexivity. Qed.

Lemma img_listed : "img"%string ∈ get_fields (img_fields tile0).
Proof. change ("img"%string ∈ ["img"%string]). apply list_elem_of_here. Qed.

Lemma gt_bboxes_listed t :
  t ∈ [tile0; tile1; tile2; tile3] →
  NoDup (get_fields (bbox_fields t)) ∧
  "gt_bboxes"%string ∈ get_fields (bbox_fields t).
Proof.
  intros Ht.
  assert (get_fields (bbox_fields t) = ["gt_bboxes"%string]) as ->.
  { rewrite !elem_of_cons in Ht.
    destruct Ht as [->|[->|[->|[->|Ht]]]]; try reflexivity.
    by apply elem_of_nil in Ht. }
  split; [apply NoDup_singleton | apply list_elem_of_here].
Qed.

Lemma canvas_size_witness :
  img_shape mosaic_out = Some (5, 6, 3) ∧ ori_shape mosaic_out = Some (5, 6, 3).
Proof.
  destruct (canvas_size (SInt 114) raw_sample tile0 tile1 tile2 tile3 mosaic_out
              2 3 3 3 2 3 1 4 3 2 2 3
              mosaic_composed eq_refl eq_refl eq_refl eq_refl)
    as (_ & _ & His & Hos & _).
  split; [exact His | exact Hos].
Defined.


Lemma labels_follow_boxes_witness :
  ∃ out_boxes,
    bboxes mosaic_out !! "gt_bboxes"%string = Some out_boxes ∧
    gt_labels mosaic_out = Some [7; 1; 2; 5] ∧
    zip out_boxes [7; 1; 2; 5]
    = [([1; 1; 3; 2], 7); ([5; 1; 6; 3], 1); ([4; 0; 5; 1], 2); ([4; 3; 6; 5], 5)].
Proof.
  destruct (labels_follow_boxes (SInt 114) raw_sample tile0 tile1 tile2 tile3 mosaic_out
              2 3 3 3 2 3 1 4 3 2 2 3 "gt_bboxes"%string
              [[0; 0; 2; 1]] [[1; 1; 2; 3]; [0; 0; 1; 1]] [] [[0; 0; 2; 2]]
              [7] [1; 2] [] [5]
              mosaic_composed eq_refl eq_refl eq_refl eq_refl
              (proj2 (gt_bboxes_listed tile0 ltac:(left)))
              eq_refl eq_refl eq_refl eq_refl eq_refl eq_refl eq_refl eq_refl
              eq_refl eq_refl eq_refl eq_refl)
    as (ob & ol & Hob & Hol & _ & _ & -> & Hzip).
  exists ob. split; [exact Hob|]. split; [exact Hol|]. exact Hzip.
Defined.


End Mosaic.

(** ** AMPGradAccumulateOptimizerHook *)
Module Accumulate.

(** The calls the hook makes on its collaborators. *)
Inductive call :=
| ModelZeroGrad        (* runner.model.zero_grad() *)
| OptimizerZeroGrad    (* runner.optimizer.zero_grad() *)
| Backward             (* scaled_loss.backward() *)
| ClipGrads            (* self.clip_grads(runner.model.parameters()) *)
| LogGradNorm          (* runner.log_buffer.update(...) *)
| ScalerStep           (* self.scaler.step(runner.optimizer) *)
| ScalerUpdate.        (* self.scaler.update() *)

#[export] Instance call_eq_dec : EqDecision call.
Proof. solve_decision. Defined.

(** The hook: the window size, whether [grad_clip] is set, and whether
    [clip_grads] finds a gradient to clip (it returns [None] otherwise). *)
Record Hook := {
  accumulation : Z;
  grad_clip : bool;
  has_grad : bool
}.

(** The runner: its iteration counter and the calls made so far, each with
    the iteration it was made in. *)
Record Runner := {
  iter : Z;
  trace : list (Z * call)
}.

Definition emit (cs : list call) (runner : Runner) : Runner :=
  {| iter := iter runner; trace := trace runner ++ ((λ c, (iter runner, c)) <$> cs) |}.

(** Python's [a % b] raises for [b = 0] and has the sign of [b] otherwise. *)
Definition py_mod (a b : Z) : option Z :=
  if decide (b = 0) then None else Some (a mod b).

(** Lines 60-63 *)
Definition before_train_iter (self : Hook) (runner : Runner) : option Runner :=
  m ← py_mod (iter runner) (accumulation self);
  if decide (m = 0) then Some (emit [ModelZeroGrad; OptimizerZeroGrad] runner)
  else Some runner.

(** Lines 65-80 *)
Definition after_train_iter (self : Hook) (runner : Runner) : option Runner :=
  let runner := emit [Backward] runner in
  m ← py_mod (iter runner + 1) (accumulation self);
  if decide (m = 0) then
    let runner :=
      if grad_clip self then
        let runner := emit [ClipGrads] runner in
        if has_grad self then emit [LogGradNorm] runner else runner
      else runner in
    Some (emit [ScalerStep; ScalerUpdate] runner)
  else Some runner.

(** Modelled from the spec: the training runner is not part of the repository;
    it fires before-iteration and after-iteration once per iteration, in this
    order, and then advances the iteration counter. *)
Definition train_iter (self : Hook) (runner : Runner) : option Runner :=
  runner ← before_train_iter self runner;
  runner ← after_train_iter self runner;
  Some {| iter := iter runner + 1; trace := trace runner |}.

Fixpoint train (self : Hook) (n : nat) (runner : Runner) : option Runner :=
  match n with
  | O => Some runner
  | S n' => runner ← train_iter self runner; train self n' runner
  end.

(** The iterations at which a call was made, in order. *)
Definition iterations_of (c : call) (tr : list (Z * call)) : list Z :=
  fst <$> filter (λ e, e.2 = c) tr.

Definition fresh_runner : Runner := {| iter := 0; trace := [] |}.

(** The calls of one iteration. *)
Definition calls_at (self : Hook) (i : Z) : list call :=
  (if decide (i mod accumulation self = 0) then [ModelZeroGrad; OptimizerZeroGrad] else [])
  ++ [Backward]
  ++ (if decide ((i + 1) mod accumulation self = 0) then
        (if grad_clip self then ClipGrads :: (if has_grad self then [LogGradNorm] else [])
         else [])
        ++ [ScalerStep; ScalerUpdate]
      else []).

Lemma train_iter_trace self runner :
  accumulation self ≠ 0 →
  train_iter self runner
  = Some {| iter := iter runner + 1;
            trace := trace runner ++ ((λ c, (iter runner, c)) <$> calls_at self (iter runner)) |}.
Proof.
  intros Hacc. unfold train_iter, before_train_iter, after_train_iter, py_mod, calls_at.
  destruct runner as [i tr]. simpl.
  rewrite !decide_False by done. simpl.
  destruct (decide (i mod accumulation self = 0)); simpl;
    rewrite ?decide_False by done; simpl;
    destruct (decide ((i + 1) mod accumulation self = 0)); simpl;
    destruct (grad_clip self), (has_grad self); simpl;
    rewrite <- ?app_assoc; simpl; try done.
Qed.

Lemma train_trace self n : ∀ runner,
  accumulation self ≠ 0 →
  train self n runner
  = Some {| iter := iter runner + Z.of_nat n;
            trace := trace runner ++
                     concat ((λ i, (λ c, (i, c)) <$> calls_at self i)
                             <$> seqZ (iter runner) (Z.of_nat n)) |}.
Proof.
  induction n as [|n IH]; intros runner Hacc.
  - simpl. destruct runner as [i tr]. simpl. by rewrite Z.add_0_r, app_nil_r.
  - cbn [train]. rewrite train_iter_trace by done. cbn [mbind option_bind].
    rewrite IH by done. cbn [iter trace].
    replace (Z.of_nat (S n)) with (Z.succ (Z.of_nat n)) by lia.
    rewrite (seqZ_cons (iter runner)) by lia.
    rewrite Z.pred_succ, fmap_cons, concat_cons, <- app_assoc.
    replace (iter runner + 1) with (Z.succ (iter runner)) by lia.
    do 2 f_equal. lia.
Qed.

Lemma iterations_of_concat c (F : Z → list (Z * call)) (l : list Z) :
  iterations_of c (concat (F <$> l)) = concat ((λ i, iterations_of c (F i)) <$> l).
Proof.
  induction l as [|i l IH]; [done|].
  rewrite !fmap_cons, !concat_cons, <- IH.
  unfold iterations_of. by rewrite filter_app, fmap_app.
Qed.

Lemma concat_select (P : Z → Prop) `{!∀ i, Decision (P i)} (l : list Z) :
  concat ((λ i, if decide (P i) then [i] else []) <$> l) = filter P l.
Proof.
  induction l as [|i l IH]; [done|].
  rewrite fmap_cons, concat_cons, IH, filter_cons.
  by destruct (decide (P i)).
Qed.

Lemma filter_none (P : Z → Prop) `{!∀ i, Decision (P i)} (l : list Z) :
  (∀ i, i ∈ l → ¬ P i) → filter P l = [].
Proof.
  induction l as [|i l IH]; intros Hnone; [done|].
  rewrite filter_cons_False by (apply Hnone; left).
  apply IH. intros j Hj. apply Hnone. by right.
Qed.

Lemma filter_seqZ_unique (P : Z → Prop) `{!∀ i, Decision (P i)} (m n x : Z) :
  m ≤ x < m + n → P x → (∀ y, m ≤ y < m + n → P y → y = x) →
  filter P (seqZ m n) = [x].
Proof.
  intros Hx HP Huniq.
  replace n with ((x - m) + (1 + (m + n - x - 1))) by lia.
  rewrite seqZ_app by lia. rewrite (seqZ_app _ 1) by lia.
  rewrite !filter_app.
  rewrite (filter_none P (seqZ m (x - m))).
  2:{ intros y Hy HPy. apply elem_of_seqZ in Hy.
      assert (y = x) by (apply Huniq; [lia|done]). lia. }
  rewrite (filter_none P (seqZ (m + (x - m) + 1) _)).
  2:{ intros y Hy HPy. apply elem_of_seqZ in Hy.
      assert (y = x) by (apply Huniq; [lia|done]). lia. }
  replace (m + (x - m)) with x by lia.
  rewrite (seqZ_cons x 1) by lia. rewrite seqZ_nil by lia.
  rewrite filter_cons_True by done. done.
Qed.

Lemma zero_grad_at self i :
  iterations_of OptimizerZeroGrad ((λ c, (i, c)) <$> calls_at self i)
  = if decide (i mod accumulation self = 0) then [i] else [].
Proof.
  unfold calls_at.
  destruct (decide (i mod accumulation self = 0)),
           (decide ((i + 1) mod accumulation self = 0)),
           (grad_clip self), (has_grad self); reflexivity.
Qed.

Lemma model_zero_grad_at self i :
  iterations_of ModelZeroGrad ((λ c, (i, c)) <$> calls_at self i)
  = if decide (i mod accumulation self = 0) then [i] else [].
Proof.
  unfold calls_at.
  destruct (decide (i mod accumulation self = 0)),
           (decide ((i + 1) mod accumulation self = 0)),
           (grad_clip self), (has_grad self); reflexivity.
Qed.

Lemma step_at self i :
  iterations_of ScalerStep ((λ c, (i, c)) <$> calls_at self i)
  = if decide ((i + 1) mod accumulation self = 0) then [i] else [].
Proof.
  unfold calls_at.
  destruct (decide (i mod accumulation self = 0)),
           (decide ((i + 1) mod accumulation self = 0)),
           (grad_clip self), (has_grad self); reflexivity.
Qed.

Lemma backward_at self i :
  iterations_of Backward ((λ c, (i, c)) <$> calls_at self i) = [i].
Proof.
  unfold calls_at.
  destruct (decide (i mod accumulation self = 0)),
           (decide ((i + 1) mod accumulation self = 0)),
           (grad_clip self), (has_grad self); reflexivity.
Qed.

(** One accumulation window, whatever its size: the gradients are cleared
    once, before its first iteration, the optimizer steps once, after its
    last iteration, and every iteration back-propagates. *)
Lemma window_schedule self k :
  0 < accumulation self → 0 ≤ k →
  let acc := accumulation self in
  ∃ runner, train self (Z.to_nat acc) {| iter := k * acc; trace := [] |} = Some runner ∧
    iter runner = (k + 1) * acc ∧
    iterations_of ModelZeroGrad (trace runner) = [k * acc] ∧
    iterations_of OptimizerZeroGrad (trace runner) = [k * acc] ∧
    iterations_of ScalerStep (trace runner) = [k * acc + acc - 1] ∧
    iterations_of Backward (trace runner) = seqZ (k * acc) acc.
Proof.
  intros Hacc Hk acc. subst acc.
  set (acc := accumulation self) in *.
  eexists. split; [apply train_trace; fold acc; lia|].
  cbn [iter trace]. rewrite Z2Nat.id by lia. rewrite app_nil_l.
  split; [lia|].
  rewrite !iterations_of_concat.
  rewrite (list_fmap_ext _ _ _ (λ _ i _, model_zero_grad_at self i)).
  rewrite (list_fmap_ext (λ i, iterations_of OptimizerZeroGrad _) _ _
             (λ _ i _, zero_grad_at self i)).
  rewrite (list_fmap_ext (λ i, iterations_of ScalerStep _) _ _
             (λ _ i _, step_at self i)).
  rewrite (list_fmap_ext (λ i, iterations_of Backward _) _ _
             (λ _ i _, backward_at self i)).
  fold acc. rewrite !concat_select.
  split; [|split; [|split]].
  - apply filter_seqZ_unique; [nia|apply Z.mod_mul; lia|].
    intros y Hy Hm. apply Z.mod_divide in Hm as [q ->]; [|lia].
    assert (k ≤ q) by nia. assert (q < k + 1) by nia.
    assert (q = k) as -> by lia. done.
  - apply filter_seqZ_unique; [nia|apply Z.mod_mul; lia|].
    intros y Hy Hm. apply Z.mod_divide in Hm as [q ->]; [|lia].
    assert (k ≤ q) by nia. assert (q < k + 1) by nia.
    assert (q = k) as -> by lia. done.
  - apply filter_seqZ_unique; [nia| |].
    + replace (k * acc + acc - 1 + 1) with ((k + 1) * acc) by lia.
      apply Z.mod_mul; lia.
    + intros y Hy Hm. apply Z.mod_divide in Hm as [q Hq]; [|lia].
      assert (k < q) by nia. assert (q ≤ k + 1) by nia.
      assert (q = k + 1) as -> by lia. lia.
  - clear. induction (seqZ (k * acc) acc) as [|i l IH]; [done|].
    rewrite fmap_cons, concat_cons, IH. done.
Qed.

(** What the claim says of the window of four: zero-grad and step both at
    iteration 3. *)
Definition claimed_schedule (tr : list (Z * call)) : Prop :=
  iterations_of OptimizerZeroGrad tr = [3] ∧
  iterations_of ScalerStep tr = [3] ∧
  iterations_of Backward tr = [0; 1; 2; 3].

Definition window_hook (clip grads : bool) : Hook :=
  {| accumulation := 4; grad_clip := clip; has_grad := grads |}.

Example window_trace :
  trace <$> train (window_hook false false) 4 fresh_runner
  = Some [(0, ModelZeroGrad); (0, OptimizerZeroGrad); (0, Backward);
          (1, Backward); (2, Backward);
          (3, Backward); (3, ScalerStep); (3, ScalerUpdate)].
Proof. reflexivity. Qed.

(** C8, as stated, fails: the gradients are cleared in iteration 0, not in
    iteration 3. *)
Lemma zero_grad_not_at_iteration_3 :
  ∃ runner, train (window_hook false false) 4 fresh_runner = Some runner ∧
            iterations_of OptimizerZeroGrad (trace runner) = [0] ∧
            ¬ claimed_schedule (trace runner).
Proof.
  eexists. split; [reflexivity|]. split; [reflexivity|].
  intros [Hz _]. vm_compute in Hz. discriminate Hz.
Qed.

(** C8, amended: with a window of 4, over the iterations 0 to 3 the hook
    clears the gradients of the model and of the optimizer once, in
    iteration 0 (iter % 4 == 0, before the forward pass), steps the optimizer
    once, in iteration 3 ((iter + 1) % 4 == 0), and back-propagates in each of
    the four iterations; nothing is cleared in iterations 1 to 3. *)
Theorem window_of_four clip grads :
  ∃ runner, train (window_hook clip grads) 4 fresh_runner = Some runner ∧
    iterations_of ModelZeroGrad (trace runner) = [0] ∧
    iterations_of OptimizerZeroGrad (trace runner) = [0] ∧
    iterations_of ScalerStep (trace runner) = [3] ∧
    iterations_of Backward (trace runner) = [0; 1; 2; 3].
Proof.
  destruct (window_schedule (window_hook clip grads) 0) as (runner & Ht & _ & H);
    [simpl; lia | lia |].
  exists runner. split; [exact Ht|]. exact H.
Qed.

End Accumulate.

(** ** torch tensors, as far as the EMA hook uses them *)
Module Torch.

Inductive dtype := float16 | float32 | float64 | uint8 | int32 | int64 | bool8.

#[export] Instance dtype_eq_dec : EqDecision dtype.
Proof. solve_decision. Defined.

Definition is_floating_point (d : dtype) : bool :=
  match d with float16 | float32 | float64 => true | _ => false end.

(** A tensor: its dtype and its entries, flattened.  The entries are real
    numbers: the rounding of floating-point arithmetic is not modelled. *)
Record Tensor := {
  tensor_dtype : dtype;
  data : list R
}.

(** Towards zero, as the conversion of a float to an integer type. *)
Definition Rtrunc (x : R) : Z :=
  if Rle_dec 0 x then Int_part x else (- Int_part (- x))%Z.

(** The conversion of an entry between dtypes; none within one dtype. *)
Definition convert (src dst : dtype) (x : R) : R :=
  if decide (src = dst) then x
  else if is_floating_point dst then x
  else IZR (Rtrunc x).

(** [t.clone()] *)
Definition clone (t : Tensor) : Tensor := t.

(** [dst.copy_(src)], in place: [dst] keeps its dtype; the shapes have to
    agree (broadcasting is not modelled and counts as the shape error). *)
Definition copy_ (dst src : Tensor) : option Tensor :=
  if decide (length (data src) = length (data dst)) then
    Some {| tensor_dtype := tensor_dtype dst;
            data := convert (tensor_dtype src) (tensor_dtype dst) <$> data src |}
  else None.

(** [t.mul_(s)], in place. *)
Definition mul_ (t : Tensor) (s : R) : Tensor :=
  {| tensor_dtype := tensor_dtype t; data := (λ x, x * s)%R <$> data t |}.

(** [t.add_(alpha, other)], in place: [t += alpha * other]. *)
Definition add_ (t : Tensor) (alpha : R) (other : Tensor) : option Tensor :=
  if decide (length (data other) = length (data t)) then
    Some {| tensor_dtype := tensor_dtype t;
            data := zip_with (λ x y, x + alpha * y)%R (data t) (data other) |}
  else None.

(** The tensor objects of the process: a parameter and a buffer are
    references into this store, so a change made through one reference is
    seen through every other. *)
Abbreviation store := (list Tensor).
Abbreviation ref := nat.

(** A module: its named parameters, in the order [named_parameters] yields
    them, and its buffers by name. *)
Record Module_ := {
  named_parameters : list (string * ref);
  named_buffers : gmap string ref
}.

(** [dict(pairs)]: the keys in the order of their first occurrence, each with
    its last value. *)
Fixpoint dict_set {V : Type} (k : string) (v : V) (d : list (string * V)) : list (string * V) :=
  match d with
  | [] => [(k, v)]
  | (k', v') :: d' => if decide (k = k') then (k, v) :: d' else (k', v') :: dict_set k v d'
  end.

Definition dict {V : Type} (pairs : list (string * V)) : list (string * V) :=
  foldl (λ d kv, dict_set kv.1 kv.2 d) [] pairs.

(** [s.replace(old, new)] for single characters. *)
Fixpoint replace (old new : Ascii.ascii) (s : string) : string :=
  match s with
  | EmptyString => EmptyString
  | String c s' => String (if Ascii.eqb c old then new else c) (replace old new s')
  end.

(** ['.' in s] *)
Fixpoint contains (c : Ascii.ascii) (s : string) : bool :=
  match s with
  | EmptyString => false
  | String c' s' => Ascii.eqb c' c || contains c s'
  end.

(** [module.register_buffer(name, tensor)]: the name must not contain a dot
    nor be empty; a buffer of this name is replaced.  (The clash of the name
    with an attribute of the module that is not a buffer is not modelled.) *)
Definition register_buffer (m : Module_) (name : string) (r : ref) : option Module_ :=
  if contains "."%char name then None
  else if decide (name = EmptyString) then None
  else Some {| named_parameters := named_parameters m;
               named_buffers := <[name := r]> (named_buffers m) |}.

End Torch.

(** ** YOLOV4EMAHook *)
Module EMA.
Import Torch.

(** The runner: the iteration counter, the model, and the tensors. *)
Record Runner := {
  iter : Z;
  model : Module_;
  tensors : store
}.

(** The hook.  [checkpoint] stands for [runner.resume(self.checkpoint)]: what
    resuming from the checkpoint does to the runner, when a path was given. *)
Record Hook := {
  momentum : R;
  interval : Z;
  warm_up : R;
  checkpoint : option (Runner → option Runner);
  param_ema_buffer : gmap string string;
  model_parameters : list (string * ref);
  model_buffers : gmap string ref
}.

(** Lines 182-192: [__init__] and its assertions. *)
Definition __init__ (momentum : R) (interval : Z) (warm_up : R)
    (resume_from : option (Runner → option Runner)) : option Hook :=
  if decide (0 < interval)%Z then
    if Rlt_dec 0 momentum then
      if Rlt_dec momentum 1 then
        Some {| momentum := momentum; interval := interval; warm_up := warm_up;
                checkpoint := resume_from; param_ema_buffer := ∅;
                model_parameters := []; model_buffers := ∅ |}
      else None
    else None
  else None.

(** Line 206: [f"ema_{name.replace('.', '_')}"] *)
Definition buffer_name (name : string) : string :=
  ("ema_" +:+ replace "."%char "_"%char name)%string.

(** Lines 204-208: the body of the registration loop. *)
Definition register (st : gmap string string * Module_ * store)
    (item : string * ref) : option (gmap string string * Module_ * store) :=
  let '(peb, m, ts) := st in
  let '(name, value) := item in
  let peb := <[name := buffer_name name]> peb in
  t ← ts !! value;
  let ts := ts ++ [clone t] in
  m ← register_buffer m (buffer_name name) (length ts - 1)%nat;
  Some (peb, m, ts).

(** Lines 194-211.  [model runner] is the module itself, out of its wrapper. *)
Definition before_run (self : Hook) (runner : Runner) : option (Hook * Runner) :=
  let m := model runner in
  let params := dict (named_parameters m) in
  '(peb, m, ts) ← foldM register (∅, m, tensors runner) params;
  let self := {| momentum := momentum self; interval := interval self;
                 warm_up := warm_up self; checkpoint := checkpoint self;
                 param_ema_buffer := peb; model_parameters := params;
                 model_buffers := named_buffers m |} in
  let runner := {| iter := iter runner; model := m; tensors := ts |} in
  match checkpoint self with
  | Some resume => runner ← resume runner; Some (self, runner)
  | None => Some (self, runner)
  end.

(** Line 218: the momentum of the update after iteration [i]. *)
Definition ema_momentum (momentum warm_up : R) (i : Z) : R :=
  (momentum * (1 - exp (IZR (- i) / warm_up)))%R.

(** Lines 217-222: the body of the update loop. *)
Definition update (self : Hook) (i : Z) (ts : store) (item : string * ref) : option store :=
  let '(name, parameter) := item in
  if Req_EM_T (warm_up self) 0 then None
  else
    let momentum := ema_momentum (momentum self) (warm_up self) i in
    p ← ts !! parameter;
    if is_floating_point (tensor_dtype p) then
      buffer_name ← param_ema_buffer self !! name;
      buffer_parameter ← model_buffers self !! buffer_name;
      b ← ts !! buffer_parameter;
      let ts := <[buffer_parameter := mul_ b momentum]> ts in
      b ← ts !! buffer_parameter;
      p ← ts !! parameter;
      b ← add_ b (1 - momentum) p;
      Some (<[buffer_parameter := b]> ts)
    else Some ts.

(** Lines 213-222 *)
Definition after_train_iter (self : Hook) (runner : Runner) : option Runner :=
  if decide (interval self = 0) then None
  else if decide ((iter runner + 1) mod interval self ≠ 0) then Some runner
  else
    ts ← foldM (update self (iter runner)) (tensors runner) (model_parameters self);
    Some {| iter := iter runner; model := model runner; tensors := ts |}.

(** Lines 236-240: the body of the swap loop. *)
Definition swap (self : Hook) (ts : store) (item : string * ref) : option store :=
  let '(name, value) := item in
  v ← ts !! value;
  let temp := clone v in
  buffer_name ← param_ema_buffer self !! name;
  ema_buffer ← model_buffers self !! buffer_name;
  e ← ts !! ema_buffer;
  v ← copy_ v e;
  let ts := <[value := v]> ts in
  e ← ts !! ema_buffer;
  e ← copy_ e temp;
  Some (<[ema_buffer := e]> ts).

(** Lines 234-240 *)
Definition _swap_ema_parameters (self : Hook) (ts : store) : option store :=
  foldM (swap self) ts (model_parameters self).

(** Lines 224-232: both epoch callbacks swap, whatever the runner holds. *)
Definition after_train_epoch (self : Hook) (runner : Runner) : option Runner :=
  ts ← _swap_ema_parameters self (tensors runner);
  Some {| iter := iter runner; model := model runner; tensors := ts |}.

Definition before_train_epoch (self : Hook) (runner : Runner) : option Runner :=
  ts ← _swap_ema_parameters self (tensors runner);
  Some {| iter := iter runner; model := model runner; tensors := ts |}.

(** *** The shadow of a parameter *)

(** The buffer a registered name is shadowed by. *)
Definition shadow (self : Hook) (name : string) : option ref :=
  buffer_name ← param_ema_buffer self !! name;
  model_buffers self !! buffer_name.

(** The parameters of the hook, each with its shadow: pairs of references. *)
Definition cells_of (self : Hook) : option (list (ref * ref)) :=
  forM (λ item, b ← shadow self item.1; Some (item.2, b)) (model_parameters self).

Definition refs (cells : list (ref * ref)) : list ref :=
  cells ≫= λ c, [c.1; c.2].

(** A parameter and its shadow have the dtype and the shape in common. *)
Definition compatible (ts : store) (c : ref * ref) : Prop :=
  ∃ tp tb, ts !! c.1 = Some tp ∧ ts !! c.2 = Some tb ∧
           tensor_dtype tb = tensor_dtype tp ∧
           length (data tb) = length (data tp).

(** The state the hook is in after registration: every parameter has its
    shadow, no tensor object is the shadow of two parameters or both a
    parameter and a shadow (the 1:1 mapping of the data model), and a shadow
    has the dtype and shape of its parameter. *)
Definition registered (self : Hook) (ts : store) : Prop :=
  ∃ cells, cells_of self = Some cells ∧ NoDup (refs cells) ∧
           Forall (compatible ts) cells.

(** The loop bodies, once the buffer is found. *)
Definition swap_cell (ts : store) (c : ref * ref) : option store :=
  v ← ts !! c.1;
  e ← ts !! c.2;
  v' ← copy_ v e;
  let ts := <[c.1 := v']> ts in
  e ← ts !! c.2;
  e' ← copy_ e v;
  Some (<[c.2 := e']> ts).


Lemma swap_shadow self ts name p b :
  shadow self name = Some b → swap self ts (name, p) = swap_cell ts (p, b).
Proof.
  unfold shadow, swap, swap_cell. intros Hs. simpl.
  destruct (ts !! p) as [v|]; simpl; [|done].
  destruct (param_ema_buffer self !! name) as [bn|]; simpl in *; [|done].
  by rewrite Hs.
Qed.


Lemma foldM_ext {A B : Type} (f g : A → B → option A) (l : list B) :
  (∀ a b, b ∈ l → f a b = g a b) → ∀ a, foldM f a l = foldM g a l.
Proof.
  induction l as [|b l IH]; intros Hfg a; [done|].
  simpl. rewrite Hfg by left.
  destruct (g a b); simpl; [|done]. apply IH. intros ???. apply Hfg. by right.
Qed.

Lemma foldM_fmap {A B C : Type} (f : A → C → option A) (h : B → C) (l : list B) :
  ∀ a, foldM f a (h <$> l) = foldM (λ a b, f a (h b)) a l.
Proof.
  induction l as [|b l IH]; intros a; [done|].
  simpl. destruct (f a (h b)); simpl; [|done]. apply IH.
Qed.

(** With the shadows found, the loops of the hook run over the cells. *)
Lemma cells_of_items self cells :
  cells_of self = Some cells →
  Forall2 (λ item c, c.1 = item.2 ∧ shadow self item.1 = Some c.2)
          (model_parameters self) cells.
Proof.
  unfold cells_of. intros H. apply forM_Some in H.
  eapply Forall2_impl; [exact H|].
  intros [name p] [p' b] Hc. simpl in *.
  destruct (shadow self name); simplify_eq/=. done.
Qed.

Lemma loop_over_cells self (body : store → string * ref → option store)
    (body_cell : store → ref * ref → option store) cells :
  (∀ ts name p b, shadow self name = Some b →
                  body ts (name, p) = body_cell ts (p, b)) →
  cells_of self = Some cells →
  ∀ ts, foldM body ts (model_parameters self) = foldM body_cell ts cells.
Proof.
  intros Hbody Hc. apply cells_of_items in Hc.
  induction Hc as [|[name p] [p' b] items cells [Hp Hs] _ IH]; intros ts; [done|].
  simpl in *. subst p'. rewrite (Hbody _ _ _ _ Hs).
  destruct (body_cell ts (p, b)); simpl; [|done]. apply IH.
Qed.

(** *** The store under the loops *)

Lemma copy_same dst src :
  tensor_dtype src = tensor_dtype dst → length (data src) = length (data dst) →
  copy_ dst src = Some src.
Proof.
  intros Hd Hl. unfold copy_, convert. rewrite decide_True by done.
  destruct src as [d l]. simpl in *. subst d. f_equal. f_equal.
  rewrite <- (list_fmap_id l) at 2. apply list_fmap_ext. intros _ x _.
  by rewrite decide_True.
Qed.

Lemma swap_cell_exchange ts p b tp tb :
  p ≠ b → ts !! p = Some tp → ts !! b = Some tb →
  tensor_dtype tb = tensor_dtype tp → length (data tb) = length (data tp) →
  swap_cell ts (p, b) = Some (<[b := tp]> (<[p := tb]> ts)).
Proof.
  intros Hne Hp Hb Hd Hl. unfold swap_cell. simpl.
  rewrite Hp, Hb. simpl. rewrite copy_same by done. simpl.
  rewrite list_lookup_insert_ne, Hb by done. simpl.
  by rewrite copy_same.
Qed.

Lemma refs_cons c cells : refs (c :: cells) = c.1 :: c.2 :: refs cells.
Proof. reflexivity. Qed.

Lemma elem_of_refs l cells :
  l ∈ refs cells ↔ ∃ c, c ∈ cells ∧ (l = c.1 ∨ l = c.2).
Proof.
  unfold refs. rewrite list_elem_of_bind. split.
  - intros (c & Hl & Hc). exists c. split; [done|].
    rewrite !elem_of_cons in Hl. destruct Hl as [?|[?|Hl]]; auto.
    by apply elem_of_nil in Hl.
  - intros (c & Hc & Hl). exists c. split; [|done].
    rewrite !elem_of_cons. tauto.
Qed.

Lemma compatible_frame ts ts' c :
  ts' !! c.1 = ts !! c.1 → ts' !! c.2 = ts !! c.2 →
  compatible ts c → compatible ts' c.
Proof.
  intros H1 H2 (tp & tb & ? & ? & ? & ?). exists tp, tb. by rewrite H1, H2.
Qed.

(** The swap loop exchanges every parameter with its shadow and touches
    nothing else. *)
Lemma swap_cells_spec cells : ∀ ts,
  NoDup (refs cells) → Forall (compatible ts) cells →
  ∃ ts', foldM swap_cell ts cells = Some ts' ∧
         length ts' = length ts ∧
         (∀ l, l ∉ refs cells → ts' !! l = ts !! l) ∧
         Forall (λ c, ts' !! c.1 = ts !! c.2 ∧ ts' !! c.2 = ts !! c.1) cells.
Proof.
  induction cells as [|[p b] cells IH]; intros ts Hnd Hcomp.
  - exists ts. by repeat split.
  - rewrite refs_cons in Hnd. simpl in Hnd.
    apply NoDup_cons in Hnd as [Hp Hnd]. apply NoDup_cons in Hnd as [Hb Hnd].
    apply not_elem_of_cons in Hp as [Hpb Hp].
    apply Forall_cons in Hcomp as [(tp & tb & Htp & Htb & Hd & Hl) Hcomp].
    simpl in Htp, Htb.
    set (ts1 := <[b := tp]> (<[p := tb]> ts)).
    assert (∀ l, l ≠ p → l ≠ b → ts1 !! l = ts !! l) as Hframe.
    { intros l ??. unfold ts1. by rewrite !list_lookup_insert_ne. }
    assert (Forall (compatible ts1) cells) as Hcomp1.
    { apply Forall_forall. intros c Hc.
      rewrite Forall_forall in Hcomp.
      assert (c.1 ∈ refs cells ∧ c.2 ∈ refs cells) as [H1 H2]
        by (split; apply elem_of_refs; eauto).
      apply (compatible_frame ts); [apply Hframe; congruence..|by apply Hcomp]. }
    destruct (IH ts1 Hnd Hcomp1) as (ts' & Hfold & Hlen & Hout & Hin).
    exists ts'. cbn [foldM]. rewrite (swap_cell_exchange _ _ _ tp tb) by done.
    split; [exact Hfold|].
    split; [rewrite Hlen; unfold ts1; by rewrite !length_insert|].
    split.
    + intros l Hl'. rewrite refs_cons in Hl'. simpl in Hl'.
      apply not_elem_of_cons in Hl' as [? Hl'].
      apply not_elem_of_cons in Hl' as [? Hl'].
      rewrite Hout by done. by apply Hframe.
    + apply Forall_cons. split.
      * simpl. rewrite !Hout by done. unfold ts1. split.
        -- rewrite list_lookup_insert_ne by done.
           rewrite list_lookup_insert_eq by (by eapply lookup_lt_Some). done.
        -- rewrite list_lookup_insert_eq; [done|].
           rewrite length_insert. by eapply lookup_lt_Some.
      * rewrite Forall_forall in Hin. apply Forall_forall. intros c Hc.
        destruct (Hin c Hc) as [H1 H2].
        assert (c.1 ∈ refs cells ∧ c.2 ∈ refs cells) as [? ?]
          by (split; apply elem_of_refs; eauto).
        rewrite H1, H2. split; apply Hframe; congruence.
Qed.

(** Swapping twice gives the store back. *)
Lemma swap_cells_twice cells ts :
  NoDup (refs cells) → Forall (compatible ts) cells →
  ∃ ts', foldM swap_cell ts cells = Some ts' ∧
         Forall (compatible ts') cells ∧
         Forall (λ c, ts' !! c.1 = ts !! c.2 ∧ ts' !! c.2 = ts !! c.1) cells ∧
         (∀ l, l ∉ refs cells → ts' !! l = ts !! l) ∧
         foldM swap_cell ts' cells = Some ts.
Proof.
  intros Hnd Hcomp.
  destruct (swap_cells_spec cells ts Hnd Hcomp) as (ts' & Hfold & Hlen & Hout & Hin).
  assert (Forall (compatible ts') cells) as Hcomp'.
  { rewrite Forall_forall in Hcomp, Hin. apply Forall_forall. intros c Hc.
    destruct (Hcomp c Hc) as (tp & tb & Htp & Htb & Hd & Hl).
    destruct (Hin c Hc) as [E1 E2].
    exists tb, tp. rewrite E1, E2. done. }
  exists ts'. do 4 (split; [done|]).
  destruct (swap_cells_spec cells ts' Hnd Hcomp') as (ts2 & Hfold2 & Hlen2 & Hout2 & Hin2).
  rewrite Hfold2. f_equal.
  apply list_eq. intros l.
  destruct (decide (l ∈ refs cells)) as [Hl|Hl].
  - apply elem_of_refs in Hl as (c & Hc & Hl).
    rewrite Forall_forall in Hin, Hin2.
    destruct (Hin c Hc) as [E1 E2]. destruct (Hin2 c Hc) as [E3 E4].
    destruct Hl as [->| ->]; congruence.
  - by rewrite Hout2, Hout.
Qed.





(** *** Registration *)













(** *** The callbacks on a registered hook *)

Lemma item_cell self cells name p :
  cells_of self = Some cells → (name, p) ∈ model_parameters self →
  ∃ b, shadow self name = Some b ∧ (p, b) ∈ cells.
Proof.
  intros Hc Hin. apply cells_of_items in Hc.
  apply list_elem_of_lookup in Hin as [i Hin].
  destruct (Forall2_lookup_l _ _ _ _ _ Hc Hin) as ([p' b] & Hcell & Hp & Hs).
  simpl in *. subst p'. exists b. split; [done|].
  apply list_elem_of_lookup. eauto.
Qed.

Lemma cell_item self cells c :
  cells_of self = Some cells → c ∈ cells →
  ∃ name, (name, c.1) ∈ model_parameters self ∧ shadow self name = Some c.2.
Proof.
  intros Hc Hin. apply cells_of_items in Hc.
  apply list_elem_of_lookup in Hin as [i Hin].
  destruct (Forall2_lookup_r _ _ _ _ _ Hc Hin) as ([name p] & Hitem & Hp & Hs).
  simpl in *. exists name. split; [|done].
  rewrite Hp. apply list_elem_of_lookup. eauto.
Qed.

Lemma swap_registered self ts :
  registered self ts →
  ∃ ts', _swap_ema_parameters self ts = Some ts' ∧
         registered self ts' ∧
         (∀ name p, (name, p) ∈ model_parameters self →
            ∃ b, shadow self name = Some b ∧
                 ts' !! p = ts !! b ∧ ts' !! b = ts !! p) ∧
         (∀ l, (∀ name p, (name, p) ∈ model_parameters self →
                          l ≠ p ∧ shadow self name ≠ Some l) →
               ts' !! l = ts !! l) ∧
         _swap_ema_parameters self ts' = Some ts.
Proof.
  intros (cells & Hcells & Hnd & Hcomp).
  destruct (swap_cells_twice cells ts Hnd Hcomp)
    as (ts' & Hfold & Hcomp' & Hin & Hout & Hback).
  exists ts'. unfold _swap_ema_parameters.
  rewrite !(loop_over_cells self (swap self) swap_cell cells (swap_shadow self) Hcells).
  split; [done|]. split; [by exists cells|]. split; [|split; [|done]].
  - intros name p Hitem.
    destruct (item_cell _ _ _ _ Hcells Hitem) as (b & Hs & Hc).
    exists b. split; [done|].
    rewrite Forall_forall in Hin. apply (Hin _ Hc).
  - intros l Hl. apply Hout. intros Hr.
    apply elem_of_refs in Hr as (c & Hc & Hr).
    destruct (cell_item _ _ _ Hcells Hc) as (name & Hitem & Hs).
    destruct (Hl _ _ Hitem) as [? ?]. destruct Hr as [->| ->]; done.
Qed.



(** *** The claims on the hook *)




(** The same on the callbacks: the swap after an epoch and the swap before
    the next one give back the runner. *)
Lemma epoch_swaps self runner :
  registered self (tensors runner) →
  ∃ runner', after_train_epoch self runner = Some runner' ∧
             before_train_epoch self runner' = Some runner.
Proof.
  intros Hreg.
  destruct (swap_registered self _ Hreg) as (ts' & Hswap & _ & _ & _ & Hback).
  unfold after_train_epoch, before_train_epoch. rewrite Hswap.
  eexists. split; [reflexivity|]. simpl. rewrite Hback. simpl.
  by destruct runner.
Qed.




(** *** The momentum of the warm-up *)





(** *** A model with a floating-point and an integer parameter *)


Definition tensor (d : dtype) (l : list R) : Tensor :=
  {| tensor_dtype := d; data := l |}.

Definition yolo_model : Module_ :=
  {| named_parameters := [("backbone.conv.weight"%string, 0%nat);
                          ("head.strides"%string, 1%nat)];
     named_buffers := {[ "backbone.bn.running_mean"%string := 2%nat ]} |}.

Definition yolo_tensors : store :=
  [tensor float32 [1%R; 2%R]; tensor int64 [8%R; 16%R; 32%R]; tensor float32 [0%R]].

Definition yolo_runner : Runner :=
  {| iter := 0; model := yolo_model; tensors := yolo_tensors |}.

(** The hook of the default configuration. *)
Definition default_hook : Hook :=
  {| momentum := 9999 / 10000; interval := 2; warm_up := 2000;
     checkpoint := None; param_ema_buffer := ∅;
     model_parameters := []; model_buffers := ∅ |}.

Example init_default : __init__ (9999 / 10000) 2 2000 None = Some default_hook.
Proof.
  unfold __init__. rewrite decide_True by lia.
  destruct (Rlt_dec 0 (9999 / 10000)) as [_|H]; [|exfalso; apply H; lra].
  destruct (Rlt_dec (9999 / 10000) 1) as [_|H]; [|exfalso; apply H; lra].
  reflexivity.
Qed.

Example buffer_name_of_weight :
  buffer_name "backbone.conv.weight" = "ema_backbone_conv_weight"%string.
Proof. reflexivity. Qed.

Definition ema_hook : Hook :=
  {| momentum := 9999 / 10000; interval := 2; warm_up := 2000;
     checkpoint := None;
     param_ema_buffer :=
       <["head.strides"%string := "ema_head_strides"%string]>
         (<["backbone.conv.weight"%string := "ema_backbone_conv_weight"%string]> ∅);
     model_parameters := named_parameters yolo_model;
     model_buffers :=
       <["ema_head_strides"%string := 4%nat]>
         (<["ema_backbone_conv_weight"%string := 3%nat]> (named_buffers yolo_model)) |}.

Definition ema_runner : Runner :=
  {| iter := 0;
     model := {| named_parameters := named_parameters yolo_model;
                 named_buffers := model_buffers ema_hook |};
     tensors := yolo_tensors ++ [tensor float32 [1%R; 2%R];
                                 tensor int64 [8%R; 16%R; 32%R]] |}.

Example registration :
  before_run default_hook yolo_runner = Some (ema_hook, ema_runner).
Proof. reflexivity. Qed.


(** The store some iterations later: the parameters have moved away from
    their shadows. *)
Definition trained_tensors : store :=
  [tensor float32 [3%R; 4%R]; tensor int64 [9%R; 18%R; 36%R]; tensor float32 [0%R];
   tensor float32 [1%R; 2%R]; tensor int64 [8%R; 16%R; 32%R]].

Definition trained_runner : Runner :=
  {| iter := 1; model := model ema_runner; tensors := trained_tensors |}.
















(** The names of the buffers are not always distinct: the dot and the
    underscore of two parameter names may meet. *)
Example buffer_names_meet :
  buffer_name "neck.conv_1.weight" = buffer_name "neck_conv.1.weight".
Proof. reflexivity. Qed.

(** Outside the registered states: two parameters whose buffer names meet
    share one shadow, and two swaps do not give the store back. *)
Definition meeting_runner : Runner :=
  {| iter := 0;
     model := {| named_parameters := [("neck.conv_1.weight"%string, 0%nat);
                                      ("neck_conv.1.weight"%string, 1%nat)];
                 named_buffers := ∅ |};
     tensors := [tensor float32 [1%R]; tensor float32 [2%R]] |}.

Example shared_shadow :
  ∃ self runner ts1 ts2,
    before_run default_hook meeting_runner = Some (self, runner) ∧
    shadow self "neck.conv_1.weight" = shadow self "neck_conv.1.weight" ∧
    _swap_ema_parameters self (tensors runner) = Some ts1 ∧
    _swap_ema_parameters self ts1 = Some ts2 ∧
    tensors runner !! 0%nat = Some (tensor float32 [1%R]) ∧
    ts2 !! 0%nat = Some (tensor float32 [2%R]).
Proof. eexists _, _, _, _. repeat split; reflexivity. Qed.

End EMA.

(** ** More on MosaicPipeline: when it raises, what it leaves alone *)
Module MosaicMore.
Import Numpy Mosaic.

Section Compositor.
Context {float : Type} `{!FloatOps float}.
Context {coord : Type} `{!CoordOps coord}.

#[local] Arguments full : simpl never.
#[local] Arguments place_tile : simpl never.
#[local] Arguments compose : simpl never.







(** X3: the entries of the canvas that lie in no tile hold the pad value, cast
    to uint8. *)
Theorem pad_outside_tiles pad_val input t0 t1 t2 t3 out
    h0 w0 c0 h1 w1 c1 h2 w2 c2 h3 w3 c3 key :
  compose pad_val input [t0; t1; t2; t3] = Some out →
  pad_shape t0 = Some (h0, w0, c0) → pad_shape t1 = Some (h1, w1, c1) →
  pad_shape t2 = Some (h2, w2, c2) → pad_shape t3 = Some (h3, w3, c3) →
  (0 ≤ h0 ∧ 0 ≤ w0) → (0 ≤ h1 ∧ 0 ≤ w1) → (0 ≤ h2 ∧ 0 ≤ w2) → (0 ≤ h3 ∧ 0 ≤ w3) →
  key ∈ get_fields (img_fields t0) →
  let yc := Z.max h0 h1 in
  let xc := Z.max w0 w2 in
  ∃ a, imgs out !! key = Some a ∧
    ∀ y x k,
      ¬ (yc - h0 ≤ y < yc ∧ xc - w0 ≤ x < xc) →
      ¬ (yc - h1 ≤ y < yc ∧ xc ≤ x < xc + w1) →
      ¬ (yc ≤ y < yc + h2 ∧ xc - w2 ≤ x < xc) →
      ¬ (yc ≤ y < yc + h3 ∧ xc ≤ x < xc + w3) →
      arr_at a y x k = astype uint8 pad_val.
Proof.
  intros Hc E0 E1 E2 E3 [Hh0 Hw0] [Hh1 Hw1] [Hh2 Hw2] [Hh3 Hw3] Hin yc xc.
  destruct (compose_image _ _ _ _ _ _ _ _ _ _ _ _ _ _ _ _ _ _ _ key Hc E0 E1 E2 E3 Hin)
    as (a & s0 & s1 & s2 & s3 & _ & _ & _ & _ & Ha & _ & _ & Hat).
  exists a. split; [done|]. intros y x k N0 N1 N2 N3.
  rewrite Hat. fold yc xc.
  rewrite (layer_miss _ _ _ _ _ _ _ _ _ _ y x k) by (unfold yc, xc in *; first [lia|done]).
  rewrite (layer_miss _ _ _ _ _ _ _ _ _ _ y x k) by (unfold yc, xc in *; first [lia|done]).
  rewrite (layer_miss _ _ _ _ _ _ _ _ _ _ y x k) by (unfold yc, xc in *; first [lia|done]).
  rewrite (layer_miss _ _ _ _ _ _ _ _ _ _ y x k) by (unfold yc, xc in *; first [lia|done]).
  done.
Qed.

Lemma compose_pad_shape_kept pad_val (input : Results float coord) tiles out :
  compose pad_val input tiles = Some out → pad_shape out = pad_shape input.
Proof.
  unfold compose. intros H.
  repeat match type of H with
         | (?x ≫= _) = Some _ => destruct x; cbn [mbind option_bind] in H; [|done]
         | (let '(_, _) := ?p in _) = Some _ => destruct p
         end.
  by injection H as <-.
Qed.

(** X4: the output is the sample as it came in, with the image keys and the
    box keys of the first tile, the labels and the two shapes written over
    it: every other array is the one of the input, and [pad_shape] is still
    the one of the input, not the shape of the canvas. *)
Theorem other_keys_survive pad_val input t0 t1 t2 t3 out :
  compose pad_val input [t0; t1; t2; t3] = Some out →
  (∀ key, key ∉ get_fields (img_fields t0) → imgs out !! key = imgs input !! key) ∧
  (∀ key, key ∉ get_fields (bbox_fields t0) →
          bboxes out !! key = bboxes input !! key) ∧
  pad_shape out = pad_shape input.
Proof.
  intros Hc. split; [|split]; [| |by eapply compose_pad_shape_kept].
  - intros key Hout. apply compose_inv in Hc.
    destruct Hc as [h0 w0 c0 h1 w1 c1 h2 w2 c2 h3 w3 c3
                      cv0 cv1 cv2 cv3 cv4 t0' t1' t2' t3' l0 l1 l2 l3
                      yc xc shape keys _ _ _ _ _ _ _ _ _ _ _ _ _ Himgs _ _ _ _ _ _ _ _ _ _].
    destruct (output_imgs_fold _ _ _ _ key Himgs) as [Hk _]. by apply Hk.
  - intros key Hout. apply compose_inv in Hc.
    destruct Hc as [h0 w0 c0 h1 w1 c1 h2 w2 c2 h3 w3 c3
                      cv0 cv1 cv2 cv3 cv4 t0' t1' t2' t3' l0 l1 l2 l3
                      yc xc shape keys _ _ _ _ _ _ _ _ _ _ _ _ _ _ Hbb _ _ _ _ _ _ _ _ _].
    destruct (output_bboxes_fold _ _ _ _ key Hbb) as [Hk _]. by apply Hk.
Qed.


End Compositor.

(** *** The four tiles of unequal shapes, again *)




Lemma pad_outside_tiles_witness :
  ∃ a, imgs mosaic_out !! "img"%string = Some a ∧
       arr_at a 0 0 0 = SInt 114 ∧ arr_at a 4 1 2 = SInt 114.
Proof.
  destruct (pad_outside_tiles (SInt 114) raw_sample tile0 tile1 tile2 tile3 mosaic_out
              2 3 3 3 2 3 1 4 3 2 2 3 "img"%string
              mosaic_composed eq_refl eq_refl eq_refl eq_refl
              ltac:(lia) ltac:(lia) ltac:(lia) ltac:(lia) img_listed)
    as (a & Ha & Hpad).
  exists a. split; [exact Ha|]. split.
  - rewrite (Hpad 0 0 0) by lia. reflexivity.
  - rewrite (Hpad 4 1 2) by lia. reflexivity.
Defined.

Lemma other_keys_survive_witness :
  pad_shape mosaic_out = None ∧ imgs mosaic_out !! "mask"%string = None.
Proof.
  destruct (other_keys_survive (SInt 114) raw_sample tile0 tile1 tile2 tile3 mosaic_out
              mosaic_composed) as (Himg & _ & Hpad).
  split; [exact Hpad|].
  rewrite Himg; [reflexivity|].
  intros Hin. apply list_elem_of_singleton in Hin. discriminate Hin.
Defined.



End MosaicMore.

(** ** RoundPad *)

(** Lines 243-310.  The images are the H×W×C arrays of [Numpy]; [size] is a
    pair of integers and [size_divisor] an integer.  The quotient
    [ori_h / divisor] is a float in the source: its ceiling is the exact one
    as long as the dimensions stay below 2^53, which is assumed. *)
Module RoundPad.
Import Numpy Mosaic.

Section Pad.
Context {float : Type} `{!FloatOps float}.
Context {coord : Type} `{!CoordOps coord}.

Abbreviation bbox_array := (list (list coord)).

(** The value cv2 writes in the border of an image of a given dtype for a
    given [pad_val]: the conversion is cv2's and is left open. *)
Variable border_value : dtype → scalar float → scalar float.

(** [mmcv.impad(img, padding=(left, top, right, bottom), pad_val=pad_val)],
    which is [cv2.copyMakeBorder] with a constant border: a negative width
    raises, the dtype is the one of the image. *)
Definition impad (img : ndarray float) (left top right bottom : Z)
    (pad_val : scalar float) : option (ndarray float) :=
  let '(h, w, c) := arr_shape img in
  if decide (0 ≤ left ∧ 0 ≤ top ∧ 0 ≤ right ∧ 0 ≤ bottom) then
    Some {| arr_dtype := arr_dtype img;
            arr_shape := (h + top + bottom, w + left + right, c);
            arr_at := λ y x k,
              if in_slice top (top + h) y && in_slice left (left + w) x
              then arr_at img (y - top) (x - left) k
              else border_value (arr_dtype img) pad_val |}
  else None.

Record RoundPad := {
  size : option (Z * Z);
  size_divisor : option Z;
  pad_val : scalar float
}.

(** Lines 257-263: exactly one of [size] and [size_divisor] is given. *)
Definition __init__ (size : option (Z * Z)) (size_divisor : option Z)
    (pad_val : scalar float) : option RoundPad :=
  if decide (is_Some size ∨ is_Some size_divisor) then
    if decide (size = None ∨ size_divisor = None) then
      Some {| size := size; size_divisor := size_divisor; pad_val := pad_val |}
    else None
  else None.

(** [int(np.ceil(a / divisor))]; a zero divisor raises. *)
Definition ceil_div (a divisor : Z) : option Z :=
  if decide (divisor = 0) then None else Some (- ((- a) / divisor)).

(** Lines 277-282: [pad_h, pad_w]; with neither attribute set the names are
    unbound at their first use. *)
Definition target (self : RoundPad) (ori_h ori_w : Z) : option (Z * Z) :=
  match size self with
  | Some (pad_h, pad_w) => Some (pad_h, pad_w)
  | None =>
      match size_divisor self with
      | Some divisor =>
          qh ← ceil_div ori_h divisor;
          qw ← ceil_div ori_w divisor;
          Some (qh * divisor, qw * divisor)
      | None => None
      end
  end.

(** What the first loop leaves behind for the code after it: [pad_left],
    [pad_top] and [padded_img.shape] of its last round, if there was one. *)
Abbreviation leftover := (option (Z * Z * (Z * Z * Z))).

(** Lines 274-291: one round of the loop over the image keys. *)
Definition pad_image (self : RoundPad)
    (st : gmap string (ndarray float) * leftover) (key : string)
    : option (gmap string (ndarray float) * leftover) :=
  img ← st.1 !! key;
  let '(ori_h, ori_w, _) := arr_shape img in
  '(pad_h, pad_w) ← target self ori_h ori_w;
  let pad_top := (pad_h - ori_h) / 2 in
  let pad_bottom := pad_h - ori_h - pad_top in
  let pad_left := (pad_w - ori_w) / 2 in
  let par_right := pad_w - ori_w - pad_left in
  padded_img ← impad img pad_left pad_top par_right pad_bottom (pad_val self);
  Some (<[key := padded_img]> st.1, Some (pad_left, pad_top, arr_shape padded_img)).

(** [b += offset] for an N×M array [b] and a vector [offset]: the rows must
    be as long as the vector. *)
Definition iadd (b : bbox_array) (offset : list Z) : option bbox_array :=
  forM (λ row, if decide (length row = length offset)
               then Some (zip_with coord_add row offset) else None) b.

(** Lines 297-303: one round of the loop over the box keys. *)
Definition shift_boxes (pad_left pad_top : Z) (m : gmap string bbox_array)
    (key : string) : option (gmap string bbox_array) :=
  b ← m !! key;
  b' ← iadd b [pad_left; pad_top; pad_left; pad_top];
  Some (<[key := b']> m).

(** The two keys the transform adds beside [pad_shape]. *)
Record PadKeys := {
  pad_fixed_size : option (Z * Z);
  pad_size_divisor : option Z
}.

(** Lines 265-303: [__call__].  An empty list of image keys leaves
    [padded_img] unbound, and line 293 raises. *)
Definition __call__ (self : RoundPad) (results : Results float coord)
    : option (Results float coord * PadKeys) :=
  '(images, left_over) ← foldM (pad_image self) (imgs results, None)
                               (default ["img"%string] (img_fields results));
  '(pad_left, pad_top, shape) ← left_over;
  boxes ← foldM (shift_boxes pad_left pad_top) (bboxes results)
                (get_fields (bbox_fields results));
  Some ({| img_fields := img_fields results;
           bbox_fields := bbox_fields results;
           pad_shape := Some shape;
           img_shape := img_shape results;
           ori_shape := ori_shape results;
           gt_labels := gt_labels results;
           imgs := images;
           bboxes := boxes |},
        {| pad_fixed_size := size self; pad_size_divisor := size_divisor self |}).

(** *** One image *)


Lemma halves_neg (n : Z) : n < 0 → n / 2 < 0.
Proof. intros Hn. apply Z.div_lt_upper_bound; lia. Qed.

(** [a] is [orig] padded to the target of [self]. *)
Definition padded_of (self : RoundPad) (orig a : ndarray float) : Prop :=
  ∃ h w c ph pw,
    arr_shape orig = (h, w, c) ∧ target self h w = Some (ph, pw) ∧
    h ≤ ph ∧ w ≤ pw ∧
    arr_shape a = (ph, pw, c) ∧ arr_dtype a = arr_dtype orig ∧
    ∀ y x k, 0 ≤ y < ph → 0 ≤ x < pw →
      arr_at a y x k
      = if in_slice ((ph - h) / 2) ((ph - h) / 2 + h) y
           && in_slice ((pw - w) / 2) ((pw - w) / 2 + w) x
        then arr_at orig (y - (ph - h) / 2) (x - (pw - w) / 2) k
        else border_value (arr_dtype orig) (pad_val self).

Lemma ceil_div_multiple q d : d ≠ 0 → ceil_div (q * d) d = Some q.
Proof.
  intros Hd. unfold ceil_div. rewrite decide_False by done. f_equal.
  replace (- (q * d)) with ((- q) * d) by lia. rewrite Z.div_mul by done. lia.
Qed.

Lemma target_again self h w ph pw :
  target self h w = Some (ph, pw) → target self ph pw = Some (ph, pw).
Proof.
  unfold target. destruct (size self) as [[sh sw]|]; [done|].
  destruct (size_divisor self) as [d|]; [|done].
  destruct (decide (d = 0)) as [->|Hd]; [unfold ceil_div; by rewrite decide_True|].
  destruct (ceil_div h d) as [qh|]; [|done]. cbn [mbind option_bind].
  destruct (ceil_div w d) as [qw|]; [|done]. cbn [mbind option_bind].
  intros [= <- <-]. rewrite !ceil_div_multiple by done. done.
Qed.

Lemma pad_image_inv self m lo key m' lo' :
  pad_image self (m, lo) key = Some (m', lo') →
  ∃ img h w c ph pw a,
    m !! key = Some img ∧ arr_shape img = (h, w, c) ∧
    target self h w = Some (ph, pw) ∧ h ≤ ph ∧ w ≤ pw ∧
    impad img ((pw - w) / 2) ((ph - h) / 2) (pw - w - (pw - w) / 2)
          (ph - h - (ph - h) / 2) (pad_val self) = Some a ∧
    arr_shape a = (ph, pw, c) ∧
    m' = <[key := a]> m ∧ lo' = Some ((pw - w) / 2, (ph - h) / 2, (ph, pw, c)).
Proof.
  unfold pad_image. cbn [fst]. intros H.
  destruct (m !! key) as [img|] eqn:Em; [|done]. cbn [mbind option_bind] in H.
  destruct (arr_shape img) as [[h w] c] eqn:Es.
  destruct (target self h w) as [[ph pw]|] eqn:Et; [|done]. cbn [mbind option_bind] in H.
  destruct (impad img _ _ _ _ _) as [a|] eqn:Ei; [|done]. cbn [mbind option_bind] in H.
  injection H as <- <-.
  pose proof Ei as Ei'. unfold impad in Ei'. rewrite Es in Ei'.
  destruct (decide _) as [(Hl & Ht & Hr & Hb)|]; [|done].
  injection Ei' as <-. cbn [arr_shape].
  assert (h ≤ ph) by (destruct (decide (h ≤ ph)); [done|];
                      pose proof (halves_neg (ph - h)); lia).
  assert (w ≤ pw) by (destruct (decide (w ≤ pw)); [done|];
                      pose proof (halves_neg (pw - w)); lia).
  exists img, h, w, c, ph, pw. eexists. do 5 (split; [done|]).
  split; [exact Ei|].
  assert (h + (ph - h) / 2 + (ph - h - (ph - h) / 2) = ph) as -> by lia.
  assert (w + (pw - w) / 2 + (pw - w - (pw - w) / 2) = pw) as -> by lia.
  done.
Qed.

Lemma impad_padded self img h w c ph pw a :
  arr_shape img = (h, w, c) → target self h w = Some (ph, pw) →
  h ≤ ph → w ≤ pw →
  impad img ((pw - w) / 2) ((ph - h) / 2) (pw - w - (pw - w) / 2)
        (ph - h - (ph - h) / 2) (pad_val self) = Some a →
  padded_of self img a.
Proof.
  intros Es Ht Hh Hw Hi. unfold impad in Hi. rewrite Es in Hi.
  destruct (decide _); [|done]. injection Hi as <-.
  exists h, w, c, ph, pw. do 4 (split; [done|]).
  split; [cbn [arr_shape]; repeat (f_equal; try lia)|]. split; [done|].
  intros y x k _ _. reflexivity.
Qed.

Lemma padded_again self orig img h w c ph pw a :
  padded_of self orig img →
  arr_shape img = (h, w, c) → target self h w = Some (ph, pw) →
  impad img ((pw - w) / 2) ((ph - h) / 2) (pw - w - (pw - w) / 2)
        (ph - h - (ph - h) / 2) (pad_val self) = Some a →
  padded_of self orig a ∧ (pw - w) / 2 = 0 ∧ (ph - h) / 2 = 0.
Proof.
  intros (h0 & w0 & c0 & ph0 & pw0 & Es0 & Ht0 & Hh0 & Hw0 & Es1 & Ed & Hat) Es Ht Hi.
  rewrite Es1 in Es. injection Es as <- <- <-.
  rewrite (target_again _ _ _ _ _ Ht0) in Ht. injection Ht as <- <-.
  rewrite !Z.sub_diag in *. change (0 / 2) with 0 in *.
  split; [|done].
  unfold impad in Hi. rewrite Es1 in Hi.
  destruct (decide _); [|done]. injection Hi as <-.
  exists h0, w0, c0, ph0, pw0. do 4 (split; [done|]).
  split; [cbn [arr_shape]; repeat (f_equal; try lia)|]. split; [done|].
  intros y x k Hy Hx. cbn [arr_at arr_dtype].
  unfold in_slice at 1 2.
  replace ((0 <=? y) && (y <? 0 + ph0)) with true
    by (symmetry; apply andb_true_iff; split; [apply Z.leb_le|apply Z.ltb_lt]; lia).
  replace ((0 <=? x) && (x <? 0 + pw0)) with true
    by (symmetry; apply andb_true_iff; split; [apply Z.leb_le|apply Z.ltb_lt]; lia).
  cbn [andb]. rewrite !Z.sub_0_r. by apply Hat.
Qed.

(** *** The loop over the image keys *)

(** The images after the keys [seen] have been through the loop, [m0] being
    the images before it. *)
Definition padded_so_far (self : RoundPad) (m0 : gmap string (ndarray float))
    (seen : list string) (m : gmap string (ndarray float)) : Prop :=
  ∀ key,
    (key ∉ seen → m !! key = m0 !! key) ∧
    (key ∈ seen → ∃ orig a, m0 !! key = Some orig ∧ m !! key = Some a ∧
                            padded_of self orig a).

Lemma pad_image_keeps self m0 seen m lo key m' lo' :
  padded_so_far self m0 seen m →
  pad_image self (m, lo) key = Some (m', lo') →
  padded_so_far self m0 (seen ++ [key]) m'.
Proof.
  intros Hinv Hp.
  destruct (pad_image_inv _ _ _ _ _ _ Hp)
    as (img & h & w & c & ph & pw & a & Hm & Es & Ht & Hh & Hw & Hi & Ea & -> & _).
  intros k. split.
  - intros Hk. rewrite not_elem_of_app, not_elem_of_cons in Hk.
    destruct Hk as (Hk & Hne & _).
    rewrite lookup_insert_ne by done. by apply Hinv.
  - intros Hk. destruct (decide (k = key)) as [->|Hne].
    + rewrite lookup_insert_eq.
      destruct (decide (key ∈ seen)) as [Hs|Hs].
      * destruct (proj2 (Hinv key) Hs) as (orig & a0 & H0 & Hm0 & Hpad).
        rewrite Hm in Hm0. injection Hm0 as <-.
        exists orig, a. do 2 (split; [done|]).
        by destruct (padded_again _ _ _ _ _ _ _ _ _ Hpad Es Ht Hi).
      * exists img, a. rewrite <- (proj1 (Hinv key) Hs). do 2 (split; [done|]).
        by eapply impad_padded.
    + rewrite lookup_insert_ne by done. apply Hinv.
      rewrite elem_of_app, list_elem_of_singleton in Hk. by destruct Hk.
Qed.

Lemma pad_fold self m0 keys : ∀ seen m lo m' lo',
  padded_so_far self m0 seen m →
  foldM (pad_image self) (m, lo) keys = Some (m', lo') →
  padded_so_far self m0 (seen ++ keys) m'.
Proof.
  induction keys as [|k ks IH]; intros seen m lo m' lo' Hinv H; simpl in H.
  - injection H as <- <-. by rewrite app_nil_r.
  - destruct (pad_image self (m, lo) k) as [[m1 lo1]|] eqn:E; simpl in H; [|done].
    rewrite cons_middle, app_assoc. eapply IH; [|exact H].
    by eapply pad_image_keeps.
Qed.

Lemma padded_so_far_start self m0 : padded_so_far self m0 [] m0.
Proof. intros key. split; [done|]. intros H. by apply elem_of_nil in H. Qed.

Lemma foldM_snoc {A B : Type} (f : A → B → option A) (l : list B) (b : B) : ∀ a,
  foldM f a (l ++ [b]) = foldM f a l ≫= λ a', f a' b.
Proof.
  induction l as [|x l IH]; intros a; simpl.
  - by destruct (f a b).
  - destruct (f a x); simpl; [apply IH|done].
Qed.

(** What the loop leaves behind is what its last round computed. *)
Lemma pad_fold_leftover self m0 ks klast m' lo' :
  foldM (pad_image self) (m0, None) (ks ++ [klast]) = Some (m', lo') →
  ∃ img h w c ph pw,
    padded_so_far self m0 ks (<[klast := img]> m') ∧
    arr_shape img = (h, w, c) ∧ target self h w = Some (ph, pw) ∧
    h ≤ ph ∧ w ≤ pw ∧
    lo' = Some ((pw - w) / 2, (ph - h) / 2, (ph, pw, c)) ∧
    (klast ∉ ks → m0 !! klast = Some img) ∧
    (klast ∈ ks → (pw - w) / 2 = 0 ∧ (ph - h) / 2 = 0).
Proof.
  rewrite foldM_snoc. intros H.
  destruct (foldM (pad_image self) (m0, None) ks) as [[m1 lo1]|] eqn:E;
    cbn [mbind option_bind] in H; [|done].
  pose proof (pad_fold _ _ _ _ _ _ _ _ (padded_so_far_start self m0) E) as Hinv.
  rewrite app_nil_l in Hinv.
  destruct (pad_image_inv _ _ _ _ _ _ H)
    as (img & h & w & c & ph & pw & a & Hm & Es & Ht & Hh & Hw & Hi & Ea & -> & ->).
  exists img, h, w, c, ph, pw.
  split; [by rewrite insert_insert_eq, insert_id|].
  do 5 (split; [done|]). split.
  - intros Hk. by rewrite <- (proj1 (Hinv klast) Hk).
  - intros Hk. destruct (proj2 (Hinv klast) Hk) as (orig & a0 & H0 & Hm0 & Hpad).
    rewrite Hm in Hm0. injection Hm0 as <-.
    by destruct (padded_again _ _ _ _ _ _ _ _ _ Hpad Es Ht Hi).
Qed.

(** The leftover of a loop that ran at all holds a padded shape. *)
Lemma pad_fold_shape self keys : ∀ m m' pl pt s,
  foldM (pad_image self) (m, None) keys = Some (m', Some (pl, pt, s)) →
  ∃ h w c ph pw, target self h w = Some (ph, pw) ∧ s = (ph, pw, c).
Proof.
  intros m m' pl pt s H. destruct keys as [|k ks _] using rev_ind; [done|].
  rewrite foldM_snoc in H.
  destruct (foldM (pad_image self) (m, None) ks) as [[m1 lo1]|];
    cbn [mbind option_bind] in H; [|done].
  destruct (pad_image_inv _ _ _ _ _ _ H)
    as (img & h & w & c & ph & pw & a & _ & _ & Ht & _ & _ & _ & _ & _ & Hlo).
  injection Hlo as _ _ ->. by exists h, w, c, ph, pw.
Qed.


(** *** The loop over the box keys *)

Lemma iadd_offset pl pt (b b' : bbox_array) :
  iadd b [pl; pt; pl; pt] = Some b' →
  Forall (λ row, length row = 4%nat) b ∧ b' = offset_box pl pt <$> b.
Proof.
  unfold iadd. revert b'. induction b as [|row b IH]; intros b' H; simpl in H.
  - injection H as <-. by split.
  - destruct (decide _) as [Hl|]; cbn [mbind option_bind] in H; [|done].
    destruct (forM _ b) as [bs|]; cbn [mbind option_bind] in H; [|done].
    injection H as <-. destruct (IH bs eq_refl) as [Hf ->].
    split; [by constructor|]. rewrite fmap_cons. f_equal.
    destruct row as [|c0 [|c1 [|c2 [|c3 [|]]]]]; try done.
Qed.



Lemma shift_boxes_fold pl pt keys : ∀ (m m' : gmap string bbox_array) key,
  foldM (shift_boxes pl pt) m keys = Some m' →
  m' !! key = Nat.iter (occurrences key keys) (fmap (offset_box pl pt)) <$> m !! key ∧
  (key ∈ keys → ∃ b, m !! key = Some b ∧ Forall (λ row, length row = 4%nat) b).
Proof.
  induction keys as [|k ks IH]; intros m m' key H; simpl in H.
  - injection H as <-. split; [by destruct (m !! key)|].
    intros Hk. by apply elem_of_nil in Hk.
  - destruct (shift_boxes pl pt m k) as [m1|] eqn:E; simpl in H; [|done].
    destruct (IH _ _ key H) as [Hl Hin]. unfold shift_boxes in E.
    destruct (m !! k) as [b|] eqn:Eb; cbn [mbind option_bind] in E; [|done].
    destruct (iadd b _) as [b'|] eqn:Ea; cbn [mbind option_bind] in E; [|done].
    injection E as <-. apply iadd_offset in Ea as [Hrows ->].
    unfold occurrences in *. rewrite filter_cons.
    destruct (decide (k = key)) as [->|Hne].
    + rewrite lookup_insert_eq in Hl, Hin. split; [|by eauto].
      rewrite Hl, Eb. simpl. f_equal. symmetry. apply Nat.iter_succ_r.
    + rewrite lookup_insert_ne in Hl, Hin by done. split; [done|].
      intros Hk. apply elem_of_cons in Hk as [->|Hk]; [done|]. by apply Hin.
Qed.



(** *** The transform *)

Lemma call_inv self r out pk :
  __call__ self r = Some (out, pk) →
  ∃ pl pt shape,
    foldM (pad_image self) (imgs r, None) (default ["img"%string] (img_fields r))
    = Some (imgs out, Some (pl, pt, shape)) ∧
    foldM (shift_boxes pl pt) (bboxes r) (get_fields (bbox_fields r))
    = Some (bboxes out) ∧
    pad_shape out = Some shape.
Proof.
  unfold __call__. intros H.
  destruct (foldM (pad_image self) _ _) as [[images [[[pl pt] shape]|]]|];
    cbn [mbind option_bind] in H; try discriminate H.
  destruct (foldM (shift_boxes pl pt) _ _) as [boxes|] eqn:Eb;
    cbn [mbind option_bind] in H; try discriminate H.
  injection H as <- <-. by exists pl, pt, shape.
Qed.

Lemma call_padded self r out pk key :
  __call__ self r = Some (out, pk) →
  key ∈ default ["img"%string] (img_fields r) →
  ∃ orig a, imgs r !! key = Some orig ∧ imgs out !! key = Some a ∧
            padded_of self orig a.
Proof.
  intros H Hk. destruct (call_inv _ _ _ _ H) as (pl & pt & shape & Hf & _ & _).
  pose proof (pad_fold _ _ _ _ _ _ _ _ (padded_so_far_start self (imgs r)) Hf) as Hinv.
  rewrite app_nil_l in Hinv. by apply Hinv.
Qed.

(** The product of the ceiling with the divisor is the least multiple of the
    divisor that is not below. *)
Lemma ceil_multiple a d q :
  0 < d → ceil_div a d = Some q → (d | q * d) ∧ a ≤ q * d < a + d.
Proof.
  intros Hd. unfold ceil_div. rewrite decide_False by lia. intros [= <-].
  split; [by apply Z.divide_factor_r|].
  pose proof (Z.div_mod (- a) d ltac:(lia)). pose proof (Z.mod_pos_bound (- a) d Hd).
  nia.
Qed.

Lemma target_multiple self d h w ph pw :
  size self = None → size_divisor self = Some d → 0 < d →
  target self h w = Some (ph, pw) →
  ((d | ph) ∧ h ≤ ph < h + d) ∧ ((d | pw) ∧ w ≤ pw < w + d).
Proof.
  intros Hs Hdiv Hd. unfold target. rewrite Hs, Hdiv.
  destruct (ceil_div h d) as [qh|] eqn:Eh; cbn [mbind option_bind]; [|done].
  destruct (ceil_div w d) as [qw|] eqn:Ew; cbn [mbind option_bind]; [|done].
  intros [= <- <-]. split; by apply ceil_multiple.
Qed.

(** X6: with a positive divisor every listed image comes out with the height
    and the width that are the least multiples of the divisor not below its
    own, the channels as they were; this also holds for a key listed more
    than once. *)
Theorem padded_to_multiple self r out pk d key :
  __call__ self r = Some (out, pk) →
  size self = None → size_divisor self = Some d → 0 < d →
  key ∈ default ["img"%string] (img_fields r) →
  ∃ orig a h w c ph pw,
    imgs r !! key = Some orig ∧ arr_shape orig = (h, w, c) ∧
    imgs out !! key = Some a ∧ arr_shape a = (ph, pw, c) ∧
    (d | ph) ∧ h ≤ ph < h + d ∧ (d | pw) ∧ w ≤ pw < w + d.
Proof.
  intros H Hs Hdiv Hd Hk.
  destruct (call_padded _ _ _ _ _ H Hk)
    as (orig & a & Ho & Ha & (h & w & c & ph & pw & Es & Ht & _ & _ & Ea & _)).
  destruct (target_multiple _ _ _ _ _ _ Hs Hdiv Hd Ht) as [[? ?] [? ?]].
  exists orig, a, h, w, c, ph, pw. repeat split; first [done|lia].
Qed.


(** X8: the boxes under every box key move by the left and the top border of
    the image the loop padded last, whatever the other images needed, and
    [pad_shape] is the shape of that image; if its key was listed before, it
    was padded already, the borders of the last round are 0 and the boxes are
    moved by nothing.  Every box array has rows of four columns. *)
Theorem boxes_follow_last_image self r out pk ks klast key :
  __call__ self r = Some (out, pk) →
  default ["img"%string] (img_fields r) = ks ++ [klast] →
  NoDup (get_fields (bbox_fields r)) →
  key ∈ get_fields (bbox_fields r) →
  ∃ b, bboxes r !! key = Some b ∧ Forall (λ row, length row = 4%nat) b ∧
    (klast ∉ ks →
       ∃ a h w c ph pw,
         imgs r !! klast = Some a ∧ arr_shape a = (h, w, c) ∧
         pad_shape out = Some (ph, pw, c) ∧
         bboxes out !! key
         = Some (offset_box ((pw - w) / 2) ((ph - h) / 2) <$> b)) ∧
    (klast ∈ ks → bboxes out !! key = Some (offset_box 0 0 <$> b)).
Proof.
  intros H Hkeys Hnd Hk.
  destruct (call_inv _ _ _ _ H) as (pl & pt & shape & Hf & Hb & Hps).
  rewrite Hkeys in Hf.
  destruct (pad_fold_leftover _ _ _ _ _ _ Hf)
    as (img & h & w & c & ph & pw & _ & Es & Ht & Hh & Hw & Hlo & Hfresh & Hseen).
  injection Hlo as -> -> ->.
  destruct (shift_boxes_fold _ _ _ _ _ key Hb) as [Hout Hin].
  destruct (Hin Hk) as (b & Eb & Hrows).
  rewrite (occurrences_once _ _ Hnd Hk), Eb in Hout. simpl in Hout.
  exists b. do 2 (split; [done|]). split.
  - intros Hnin. exists img, h, w, c, ph, pw. by rewrite (Hfresh Hnin).
  - intros Hin'. destruct (Hseen Hin') as [El Et]. by rewrite El, Et in Hout.
Qed.


Lemma call_pad_shape self r out pk :
  __call__ self r = Some (out, pk) →
  ∃ h w c ph pw, target self h w = Some (ph, pw) ∧ pad_shape out = Some (ph, pw, c).
Proof.
  intros H. destruct (call_inv _ _ _ _ H) as (pl & pt & shape & Hf & _ & Hps).
  destruct (pad_fold_shape _ _ _ _ _ _ _ Hf) as (h & w & c & ph & pw & Ht & ->).
  by exists h, w, c, ph, pw.
Qed.

Lemma divide_max d a b : (d | a) → (d | b) → (d | Z.max a b).
Proof. intros Ha Hb. destruct (Z.max_spec a b) as [[_ ->]|[_ ->]]; done. Qed.

(** X10: a mosaic of four samples that went through the transform with a
    positive divisor has a canvas whose height and width are multiples of the
    divisor. *)
Theorem mosaic_of_padded_tiles self d fill input r0 r1 r2 r3 t0 t1 t2 t3 k0 k1 k2 k3 out :
  size self = None → size_divisor self = Some d → 0 < d →
  __call__ self r0 = Some (t0, k0) → __call__ self r1 = Some (t1, k1) →
  __call__ self r2 = Some (t2, k2) → __call__ self r3 = Some (t3, k3) →
  compose fill input [t0; t1; t2; t3] = Some out →
  ∃ ch cw c, img_shape out = Some (ch, cw, c) ∧ (d | ch) ∧ (d | cw).
Proof.
  intros Hs Hdiv Hd H0 H1 H2 H3 Hc.
  destruct (call_pad_shape _ _ _ _ H0) as (h0 & w0 & c0 & ph0 & pw0 & T0 & E0).
  destruct (call_pad_shape _ _ _ _ H1) as (h1 & w1 & c1 & ph1 & pw1 & T1 & E1).
  destruct (call_pad_shape _ _ _ _ H2) as (h2 & w2 & c2 & ph2 & pw2 & T2 & E2).
  destruct (call_pad_shape _ _ _ _ H3) as (h3 & w3 & c3 & ph3 & pw3 & T3 & E3).
  destruct (target_multiple _ _ _ _ _ _ Hs Hdiv Hd T0) as [[? _] [? _]].
  destruct (target_multiple _ _ _ _ _ _ Hs Hdiv Hd T1) as [[? _] [? _]].
  destruct (target_multiple _ _ _ _ _ _ Hs Hdiv Hd T2) as [[? _] [? _]].
  destruct (target_multiple _ _ _ _ _ _ Hs Hdiv Hd T3) as [[? _] [? _]].
  destruct (compose_shape _ _ _ _ _ _ _ _ _ _ _ _ _ _ _ _ _ _ _ Hc E0 E1 E2 E3)
    as (His & _).
  eexists _, _, _. split; [exact His|].
  split; apply Z.divide_add_r; by apply divide_max.
Qed.

(** X11: a mosaic of four samples that went through the transform with a
    fixed size has a canvas of twice the height and twice the width. *)
Theorem mosaic_of_fixed_tiles self sh sw fill input r0 r1 r2 r3 t0 t1 t2 t3 k0 k1 k2 k3 out :
  size self = Some (sh, sw) →
  __call__ self r0 = Some (t0, k0) → __call__ self r1 = Some (t1, k1) →
  __call__ self r2 = Some (t2, k2) → __call__ self r3 = Some (t3, k3) →
  compose fill input [t0; t1; t2; t3] = Some out →
  ∃ c, img_shape out = Some (2 * sh, 2 * sw, c).
Proof.
  intros Hs H0 H1 H2 H3 Hc.
  destruct (call_pad_shape _ _ _ _ H0) as (h0 & w0 & c0 & ph0 & pw0 & T0 & E0).
  destruct (call_pad_shape _ _ _ _ H1) as (h1 & w1 & c1 & ph1 & pw1 & T1 & E1).
  destruct (call_pad_shape _ _ _ _ H2) as (h2 & w2 & c2 & ph2 & pw2 & T2 & E2).
  destruct (call_pad_shape _ _ _ _ H3) as (h3 & w3 & c3 & ph3 & pw3 & T3 & E3).
  unfold target in T0, T1, T2, T3. rewrite Hs in T0, T1, T2, T3.
  simplify_eq.
  destruct (compose_shape _ _ _ _ _ _ _ _ _ _ _ _ _ _ _ _ _ _ _ Hc E0 E1 E2 E3)
    as (His & _).
  exists c0. rewrite His. do 2 f_equal. f_equal; lia.
Qed.

End Pad.

Arguments RoundPad : clear implicits.

(** *** A 5×7 image, padded to multiples of 4 and to 8×9 *)

(** A border value that saturates, for the examples. *)
Definition clamp (d : dtype) (v : scalar Q) : scalar Q :=
  match d with
  | uint8 => SInt (Z.max 0 (Z.min 255 (to_int v)))
  | _ => astype d v
  end.

Definition pad_to_4 : RoundPad Q :=
  {| size := None; size_divisor := Some 4; pad_val := SInt 114 |}.

Definition pad_to_8_9 : RoundPad Q :=
  {| size := Some (8, 9); size_divisor := None; pad_val := SInt 114 |}.


Definition photo : Results Q Z :=
  sample (5, 7, 3) (image uint8 (5, 7, 3) (λ y x _, SInt (10 * y + x)))
         [[1; 1; 3; 2]] [7].

Definition padded_photo : Results Q Z * PadKeys :=
  default (photo, {| pad_fixed_size := None; pad_size_divisor := None |})
          (__call__ clamp pad_to_4 photo).

Lemma photo_padded : __call__ clamp pad_to_4 photo = Some padded_photo.
Proof. vm_compute. reflexivity. Qed.

Definition fixed_photo : Results Q Z * PadKeys :=
  default (photo, {| pad_fixed_size := None; pad_size_divisor := None |})
          (__call__ clamp pad_to_8_9 photo).

Lemma photo_fixed : __call__ clamp pad_to_8_9 photo = Some fixed_photo.
Proof. vm_compute. reflexivity. Qed.

Definition four_photos (t : Results Q Z) : Results Q Z :=
  default raw_sample (compose (SInt 114) raw_sample [t; t; t; t]).

Lemma padded_photos_composed :
  compose (SInt 114) raw_sample
          [padded_photo.1; padded_photo.1; padded_photo.1; padded_photo.1]
  = Some (four_photos padded_photo.1).
Proof. vm_compute. reflexivity. Qed.

Lemma fixed_photos_composed :
  compose (SInt 114) raw_sample
          [fixed_photo.1; fixed_photo.1; fixed_photo.1; fixed_photo.1]
  = Some (four_photos fixed_photo.1).
Proof. vm_compute. reflexivity. Qed.

Lemma photo_img_listed : "img"%string ∈ default ["img"%string] (img_fields photo).
Proof. apply list_elem_of_here. Qed.

Lemma photo_boxes_listed : "gt_bboxes"%string ∈ get_fields (bbox_fields photo).
Proof. apply list_elem_of_here. Qed.

Lemma padded_to_multiple_witness :
  ∃ a, imgs padded_photo.1 !! "img"%string = Some a ∧ arr_shape a = (8, 8, 3).
Proof.
  destruct (padded_to_multiple clamp pad_to_4 photo padded_photo.1 padded_photo.2 4
              "img"%string photo_padded eq_refl eq_refl ltac:(lia) photo_img_listed)
    as (orig & a & h & w & c & ph & pw & Ho & Es & Ha & Ea & [qh Hqh] & Hh & [qw Hqw] & Hw).
  vm_compute in Ho. injection Ho as <-. injection Es as <- <- <-.
  assert (ph = 8) as -> by lia. assert (pw = 8) as -> by lia.
  exists a. split; [exact Ha | exact Ea].
Defined.


Lemma boxes_follow_last_image_witness :
  bboxes padded_photo.1 !! "gt_bboxes"%string = Some [[1; 2; 3; 3]] ∧
  pad_shape padded_photo.1 = Some (8, 8, 3).
Proof.
  destruct (boxes_follow_last_image clamp pad_to_4 photo padded_photo.1 padded_photo.2
              [] "img"%string "gt_bboxes"%string photo_padded eq_refl
              (NoDup_singleton _) photo_boxes_listed)
    as (b & Hb & _ & Hfresh & _).
  destruct (Hfresh ltac:(apply not_elem_of_nil))
    as (a & h & w & c & ph & pw & Ha & Es & Hps & Hout).
  vm_compute in Hb, Ha. injection Hb as <-. injection Ha as <-.
  injection Es as <- <- <-.
  assert (ph = 8 ∧ pw = 8) as [-> ->].
  { vm_compute in Hps. by injection Hps as <- <-. }
  split; [exact Hout | exact Hps].
Defined.


Lemma mosaic_of_padded_tiles_witness :
  ∃ ch cw c, img_shape (four_photos padded_photo.1) = Some (ch, cw, c) ∧
             (4 | ch) ∧ (4 | cw).
Proof.
  exact (mosaic_of_padded_tiles clamp pad_to_4 4 (SInt 114) raw_sample
           photo photo photo photo
           padded_photo.1 padded_photo.1 padded_photo.1 padded_photo.1
           padded_photo.2 padded_photo.2 padded_photo.2 padded_photo.2
           (four_photos padded_photo.1) eq_refl eq_refl ltac:(lia)
           photo_padded photo_padded photo_padded photo_padded
           padded_photos_composed).
Defined.

Lemma mosaic_of_fixed_tiles_witness :
  ∃ c, img_shape (four_photos fixed_photo.1) = Some (2 * 8, 2 * 9, c).
Proof.
  exact (mosaic_of_fixed_tiles clamp pad_to_8_9 8 9 (SInt 114) raw_sample
           photo photo photo photo
           fixed_photo.1 fixed_photo.1 fixed_photo.1 fixed_photo.1
           fixed_photo.2 fixed_photo.2 fixed_photo.2 fixed_photo.2
           (four_photos fixed_photo.1) eq_refl
           photo_fixed photo_fixed photo_fixed photo_fixed
           fixed_photos_composed).
Defined.

End RoundPad.

(** ** More on AMPGradAccumulateOptimizerHook: whole runs *)
Module AccumulateMore.
Import Accumulate.

Lemma per_iteration (c : call) (sel : Z → list Z) self (l : list Z) :
  (∀ i, iterations_of c ((λ c, (i, c)) <$> calls_at self i) = sel i) →
  iterations_of c (concat ((λ i, (λ c, (i, c)) <$> calls_at self i) <$> l))
  = concat (sel <$> l).
Proof.
  intros Hsel. rewrite iterations_of_concat. f_equal.
  apply list_fmap_ext. intros _ i _. apply Hsel.
Qed.

Lemma clip_at self i :
  iterations_of ClipGrads ((λ c, (i, c)) <$> calls_at self i)
  = if grad_clip self
    then iterations_of ScalerStep ((λ c, (i, c)) <$> calls_at self i) else [].
Proof.
  unfold calls_at.
  destruct (decide (i mod accumulation self = 0)),
           (decide ((i + 1) mod accumulation self = 0)),
           (grad_clip self), (has_grad self); reflexivity.
Qed.

Lemma log_at self i :
  iterations_of LogGradNorm ((λ c, (i, c)) <$> calls_at self i)
  = if grad_clip self && has_grad self
    then iterations_of ScalerStep ((λ c, (i, c)) <$> calls_at self i) else [].
Proof.
  unfold calls_at.
  destruct (decide (i mod accumulation self = 0)),
           (decide ((i + 1) mod accumulation self = 0)),
           (grad_clip self), (has_grad self); reflexivity.
Qed.

Lemma update_at self i :
  iterations_of ScalerUpdate ((λ c, (i, c)) <$> calls_at self i)
  = iterations_of ScalerStep ((λ c, (i, c)) <$> calls_at self i).
Proof.
  unfold calls_at.
  destruct (decide (i mod accumulation self = 0)),
           (decide ((i + 1) mod accumulation self = 0)),
           (grad_clip self), (has_grad self); reflexivity.
Qed.

Lemma concat_nils {A : Type} (l : list Z) : concat ((λ _, @nil A) <$> l) = [].
Proof. induction l as [|i l IH]; [done|]. by rewrite fmap_cons, concat_cons, IH. Qed.

Lemma concat_singletons (l : list Z) : concat ((λ i, [i]) <$> l) = l.
Proof. induction l as [|i l IH]; [done|]. by rewrite fmap_cons, concat_cons, IH. Qed.

(** X12: the schedule of any window.  With a window of [acc] > 0 iterations,
    over the iterations of the k-th window the gradients of the model and of
    the optimizer are cleared once, before its first iteration, the optimizer
    steps once, after its last, and every iteration back-propagates. *)
Theorem any_window self k :
  0 < accumulation self → 0 ≤ k →
  let acc := accumulation self in
  ∃ runner, train self (Z.to_nat acc) {| iter := k * acc; trace := [] |} = Some runner ∧
    iter runner = (k + 1) * acc ∧
    iterations_of ModelZeroGrad (trace runner) = [k * acc] ∧
    iterations_of OptimizerZeroGrad (trace runner) = [k * acc] ∧
    iterations_of ScalerStep (trace runner) = [k * acc + acc - 1] ∧
    iterations_of Backward (trace runner) = seqZ (k * acc) acc.
Proof. apply window_schedule. Qed.

(** X13: a run of any length.  Over [n] iterations from iteration 0 the
    optimizer steps after the iterations [i] with [acc | i + 1], the gradients
    are cleared before those with [acc | i], every iteration back-propagates;
    what the iterations after the last full window accumulate is never
    applied: no step follows them. *)
Theorem run_schedule self n :
  0 < accumulation self →
  let acc := accumulation self in
  ∃ runner, train self n fresh_runner = Some runner ∧
    iter runner = Z.of_nat n ∧
    (∀ i, i ∈ iterations_of ScalerStep (trace runner)
          ↔ 0 ≤ i < Z.of_nat n ∧ (i + 1) mod acc = 0) ∧
    (∀ i, i ∈ iterations_of OptimizerZeroGrad (trace runner)
          ↔ 0 ≤ i < Z.of_nat n ∧ i mod acc = 0) ∧
    iterations_of Backward (trace runner) = seqZ 0 (Z.of_nat n) ∧
    (∀ i j, Z.of_nat n - Z.of_nat n mod acc ≤ i < Z.of_nat n →
            j ∈ iterations_of ScalerStep (trace runner) → j < i).
Proof.
  intros Hacc acc. eexists. split; [apply train_trace; lia|].
  cbn [iter trace fresh_runner]. rewrite app_nil_l. split; [lia|].
  rewrite (per_iteration ScalerStep _ self _ (step_at self)).
  rewrite (per_iteration OptimizerZeroGrad _ self _ (zero_grad_at self)).
  rewrite (per_iteration Backward _ self _ (backward_at self)).
  fold acc. rewrite !concat_select, concat_singletons.
  assert (∀ i, i ∈ filter (λ i, (i + 1) mod acc = 0) (seqZ 0 (Z.of_nat n))
               ↔ 0 ≤ i < Z.of_nat n ∧ (i + 1) mod acc = 0) as Hstep.
  { intros i. rewrite list_elem_of_filter, elem_of_seqZ. split; intros [? ?]; split; first [done|lia]. }
  split; [exact Hstep|]. split; [|split; [done|]].
  - intros i. rewrite list_elem_of_filter, elem_of_seqZ. split; intros [? ?]; split; first [done|lia].
  - intros i j Hi Hj. apply Hstep in Hj as [Hj Hm].
    apply Z.mod_divide in Hm as [q Hq]; [|lia].
    pose proof (Z.div_mod (Z.of_nat n) acc ltac:(lia)) as Hn.
    pose proof (Z.mod_pos_bound (Z.of_nat n) acc Hacc) as Hr.
    assert (q ≤ Z.of_nat n / acc) by nia. nia.
Qed.

(** X14: in any run, from any iteration on, the gradients are clipped in the
    iterations in which the optimizer steps, and in no other, if [grad_clip]
    is set, and never if it is not; the norm is logged in these iterations if
    there was a gradient; the scaler is updated with every step; the model
    and the optimizer are cleared together. *)
Theorem clipping_with_steps self n k :
  accumulation self ≠ 0 →
  ∃ runner, train self n {| iter := k; trace := [] |} = Some runner ∧
    iterations_of ClipGrads (trace runner)
    = (if grad_clip self then iterations_of ScalerStep (trace runner) else []) ∧
    iterations_of LogGradNorm (trace runner)
    = (if grad_clip self && has_grad self
       then iterations_of ScalerStep (trace runner) else []) ∧
    iterations_of ScalerUpdate (trace runner)
    = iterations_of ScalerStep (trace runner) ∧
    iterations_of ModelZeroGrad (trace runner)
    = iterations_of OptimizerZeroGrad (trace runner).
Proof.
  intros Hacc. eexists. split; [by apply train_trace|].
  cbn [iter trace]. rewrite app_nil_l.
  rewrite (per_iteration ClipGrads _ self _ (clip_at self)).
  rewrite (per_iteration LogGradNorm _ self _ (log_at self)).
  rewrite (per_iteration ScalerUpdate _ self _ (update_at self)).
  rewrite (per_iteration ModelZeroGrad _ self _ (model_zero_grad_at self)).
  rewrite (per_iteration OptimizerZeroGrad _ self _ (zero_grad_at self)).
  rewrite !iterations_of_concat.
  split; [|split; [|done]].
  - destruct (grad_clip self); [done|apply concat_nils].
  - destruct (grad_clip self && has_grad self); [done|apply concat_nils].
Qed.

(** X15: a window of 0 is accepted by the hook and raises in the first
    iteration, at [iter % 0]: a run raises exactly when it has an
    iteration. *)
Theorem zero_accumulation_raises self n runner :
  accumulation self = 0 →
  train self n runner = None ↔ n ≠ 0%nat.
Proof.
  intros Hacc. destruct n as [|n]; [done|].
  split; [done|]. intros _. cbn [train]. unfold train_iter, before_train_iter, py_mod.
  rewrite Hacc. by rewrite decide_True.
Qed.

Definition window_of_3 : Hook := {| accumulation := 3; grad_clip := true; has_grad := false |}.

Definition window_of_0 : Hook := {| accumulation := 0; grad_clip := false; has_grad := false |}.

Lemma any_window_witness :
  ∃ runner, train window_of_3 3 {| iter := 6; trace := [] |} = Some runner ∧
            iterations_of OptimizerZeroGrad (trace runner) = [6] ∧
            iterations_of ScalerStep (trace runner) = [8].
Proof.
  destruct (any_window window_of_3 2 ltac:(simpl; lia) ltac:(lia))
    as (runner & Ht & _ & _ & Hz & Hs & _).
  exists runner. split; [exact Ht|]. split; [exact Hz | exact Hs].
Defined.

Lemma run_schedule_witness :
  ∃ runner, train window_of_3 8 fresh_runner = Some runner ∧
            5 ∈ iterations_of ScalerStep (trace runner) ∧
            ∀ j, j ∈ iterations_of ScalerStep (trace runner) → j < 6.
Proof.
  destruct (run_schedule window_of_3 8 ltac:(simpl; lia))
    as (runner & Ht & _ & Hs & _ & _ & Hlast).
  exists runner. split; [exact Ht|]. split.
  - apply Hs. split; [lia|reflexivity].
  - intros j Hj. apply (Hlast 6 j); [|exact Hj].
    change (Z.of_nat 8 - Z.of_nat 8 mod accumulation window_of_3) with 6. lia.
Defined.

Lemma clipping_with_steps_witness :
  ∃ runner, train window_of_3 7 {| iter := 4; trace := [] |} = Some runner ∧
            iterations_of ClipGrads (trace runner)
            = iterations_of ScalerStep (trace runner) ∧
            iterations_of LogGradNorm (trace runner) = [].
Proof.
  destruct (clipping_with_steps window_of_3 7 4 ltac:(simpl; lia))
    as (runner & Ht & Hc & Hl & _).
  exists runner. split; [exact Ht|]. split; [exact Hc | exact Hl].
Defined.

Lemma zero_accumulation_raises_witness : train window_of_0 1 fresh_runner = None.
Proof.
  apply (zero_accumulation_raises window_of_0 1 fresh_runner eq_refl). lia.
Defined.

End AccumulateMore.

(** ** More on YOLOV4EMAHook: the callbacks in any order, the bounds of the
    shadow, what raises *)
Module EMAMore.
Import Torch EMA.









(** X18: the momentum is computed inside the loop over the parameters, so a
    [warm_up] of 0 raises (a division by zero) in the iterations of an
    update, and only if the hook has a parameter. *)
Theorem zero_warm_up_raises self runner :
  warm_up self = 0%R → interval self ≠ 0 → (iter runner + 1) mod interval self = 0 →
  after_train_iter self runner = None ↔ model_parameters self ≠ [].
Proof.
  intros Hw Hint Hmod. unfold after_train_iter.
  rewrite decide_False by done. rewrite decide_False by (by intros ?).
  destruct (model_parameters self) as [|[name p] rest]; [done|].
  split; [done|]. intros _. cbn [foldM]. unfold update at 2.
  destruct (Req_EM_T (warm_up self) 0); done.
Qed.



(** *** The hook of the registered model, again *)



(** The same hook with a warm-up of 0 iterations. *)
Definition cold_hook : Hook :=
  {| momentum := momentum ema_hook; interval := interval ema_hook; warm_up := 0;
     checkpoint := None; param_ema_buffer := param_ema_buffer ema_hook;
     model_parameters := model_parameters ema_hook;
     model_buffers := model_buffers ema_hook |}.

Lemma zero_warm_up_raises_witness : after_train_iter cold_hook trained_runner = None.
Proof.
  apply (zero_warm_up_raises cold_hook trained_runner eq_refl); [simpl; lia|reflexivity|].
  discriminate.
Defined.


End EMAMore.

(** ** LrBiasPreHeatHook *)

(** Lines 128-156.  The learning rates are real numbers: the rounding of
    floating-point arithmetic is not modelled.  Of the optimizer the hook
    reads and writes the ['lr'] of each parameter group, of the model it
    reads the names of the parameters. *)
Module BiasPreHeat.

(** [sub in s] *)
Fixpoint is_in (sub s : string) : bool :=
  String.prefix sub s ||
  match s with
  | EmptyString => false
  | String _ s' => is_in sub s'
  end.

(** The runner: the iteration counter, the names [named_parameters] yields,
    which are as many as [parameters] yields, and the ['lr'] of the groups of
    [optimizer.param_groups]. *)
Record Runner := {
  iter : Z;
  parameter_names : list string;
  param_groups : list R
}.

Record Hook := {
  preheat_iters : Z;
  preheat_ratio : R;
  bias_base_lr : gmap nat R
}.

(** Lines 130-137 *)
Definition __init__ (preheat_iters : Z) (preheat_ratio : R) : Hook :=
  {| preheat_iters := preheat_iters; preheat_ratio := preheat_ratio;
     bias_base_lr := ∅ |}.

(** [enumerate(l)], counting from [n] *)
Fixpoint enumerate_from {A : Type} (n : nat) (l : list A) : list (nat * A) :=
  match l with
  | [] => []
  | a :: l' => (n, a) :: enumerate_from (S n) l'
  end.

(** Lines 147-150: the body of the loop of [before_run]. *)
Definition note_bias (runner : Runner) (self : Hook) (item : nat * string) : option Hook :=
  let '(group_ind, name) := item in
  if is_in ".bias" name then
    lr ← param_groups runner !! group_ind;
    Some {| preheat_iters := preheat_iters self; preheat_ratio := preheat_ratio self;
            bias_base_lr := <[group_ind := lr]> (bias_base_lr self) |}
  else Some self.

(** Lines 139-150: with a number of groups that is not the number of
    parameters the hook warns and registers nothing. *)
Definition before_run (self : Hook) (runner : Runner) : option Hook :=
  if decide (length (param_groups runner) ≠ length (parameter_names runner)) then
    Some self
  else foldM (note_bias runner) self (enumerate_from 0 (parameter_names runner)).

(** [a / b] on integers, a float; a zero divisor raises. *)
Definition true_div (a b : Z) : option R :=
  if decide (b = 0) then None else Some (IZR a / IZR b)%R.

(** Line 155 *)
Definition cur_ratio (preheat_ratio prog : R) : R :=
  ((preheat_ratio - 1) * (1 - prog) + 1)%R.

(** Line 157: the body of the loop of [before_train_iter]; a group index
    past the groups raises. *)
Definition set_lr (c : R) (groups : list R) (item : nat * R) : option (list R) :=
  let '(group_ind, lr_init_value) := item in
  if decide (group_ind < length groups)%nat
  then Some (<[group_ind := (c * lr_init_value)%R]> groups)
  else None.

(** Lines 152-157.  The entries of the dict are written to different groups,
    so their order does not matter. *)
Definition before_train_iter (self : Hook) (runner : Runner) : option Runner :=
  if decide (iter runner < preheat_iters self) then
    prog ← true_div (iter runner) (preheat_iters self);
    groups ← foldM (set_lr (cur_ratio (preheat_ratio self) prog))
                   (param_groups runner) (map_to_list (bias_base_lr self));
    Some {| iter := iter runner; parameter_names := parameter_names runner;
            param_groups := groups |}
  else Some runner.

(** The training loop, which is not part of the repository: the callback
    fires before each iteration, and the iteration counter advances after
    it; nothing else writes the learning rates. *)
Fixpoint train (self : Hook) (n : nat) (runner : Runner) : option Runner :=
  match n with
  | O => Some runner
  | S n' =>
      runner ← before_train_iter self runner;
      train self n' {| iter := iter runner + 1;
                       parameter_names := parameter_names runner;
                       param_groups := param_groups runner |}
  end.

(** The factor of the bias learning rates in iteration [i]. *)
Definition factor (self : Hook) (i : Z) : R :=
  cur_ratio (preheat_ratio self) (IZR i / IZR (preheat_iters self)).

(** *** The registration *)

Lemma note_bias_fold runner names : ∀ self k,
  (k + length names ≤ length (param_groups runner))%nat →
  ∃ self', foldM (note_bias runner) self (enumerate_from k names) = Some self' ∧
    preheat_iters self' = preheat_iters self ∧
    preheat_ratio self' = preheat_ratio self ∧
    ∀ g, bias_base_lr self' !! g
         = match names !! (g - k)%nat with
           | Some name =>
               if decide (k ≤ g)%nat then
                 if is_in ".bias" name then param_groups runner !! g
                 else bias_base_lr self !! g
               else bias_base_lr self !! g
           | None => bias_base_lr self !! g
           end.
Proof.
  induction names as [|name names IH]; intros self k Hlen.
  - exists self. by repeat split.
  - cbn [enumerate_from foldM]. cbn [length] in Hlen.
    destruct (lookup_lt_is_Some_2 (param_groups runner) k ltac:(lia)) as [lr Hlr].
    set (self1 := if is_in ".bias" name
                  then {| preheat_iters := preheat_iters self;
                          preheat_ratio := preheat_ratio self;
                          bias_base_lr := <[k := lr]> (bias_base_lr self) |}
                  else self).
    assert (note_bias runner self (k, name) = Some self1) as ->.
    { unfold note_bias, self1. destruct (is_in ".bias" name); [|done]. by rewrite Hlr. }
    cbn [mbind option_bind].
    destruct (IH self1 (S k) ltac:(lia)) as (self' & Hfold & Hi & Hr & Hmap).
    exists self'. split; [exact Hfold|].
    split; [rewrite Hi; unfold self1; by destruct (is_in ".bias" name)|].
    split; [rewrite Hr; unfold self1; by destruct (is_in ".bias" name)|].
    intros g. rewrite Hmap.
    destruct (decide (g = k)) as [->|Hne].
    + rewrite Nat.sub_diag. cbn [lookup list_lookup].
      replace (names !! (k - S k)%nat) with (names !! 0%nat) by (f_equal; lia).
      rewrite decide_True by lia.
      assert (bias_base_lr self1 !! k
              = if is_in ".bias" name then param_groups runner !! k
                else bias_base_lr self !! k) as Hk.
      { unfold self1. destruct (is_in ".bias" name); [|done].
        cbn [bias_base_lr]. by rewrite lookup_insert_eq. }
      destruct (names !! 0%nat); [|done]. by rewrite decide_False by lia.
    + assert (bias_base_lr self1 !! g = bias_base_lr self !! g) as Hg.
      { unfold self1. destruct (is_in ".bias" name); [|done].
        cbn [bias_base_lr]. by rewrite lookup_insert_ne. }
      rewrite Hg. destruct (decide (k ≤ g)%nat) as [Hle|Hgt].
      * replace (g - k)%nat with (S (g - S k)) by lia. cbn [lookup list_lookup].
        destruct (names !! (g - S k)%nat); [|done].
        by rewrite decide_True by lia.
      * replace (g - k)%nat with 0%nat by lia. cbn [lookup list_lookup].
        replace (g - S k)%nat with 0%nat by lia.
        destruct (names !! 0%nat); [|done]. by rewrite decide_False by lia.
Qed.

Lemma bias_registration self runner :
  length (param_groups runner) = length (parameter_names runner) →
  ∃ self', before_run self runner = Some self' ∧
    preheat_iters self' = preheat_iters self ∧
    preheat_ratio self' = preheat_ratio self ∧
    ∀ g, bias_base_lr self' !! g
         = match parameter_names runner !! g with
           | Some name => if is_in ".bias" name then param_groups runner !! g
                          else bias_base_lr self !! g
           | None => bias_base_lr self !! g
           end.
Proof.
  intros Hlen. unfold before_run. rewrite decide_False by (by intros ?).
  destruct (note_bias_fold runner (parameter_names runner) self 0 ltac:(lia))
    as (self' & Hfold & Hi & Hr & Hmap).
  exists self'. do 3 (split; [done|]). intros g. rewrite Hmap, Nat.sub_0_r.
  destruct (parameter_names runner !! g); [|done]. by rewrite decide_True by lia.
Qed.

(** *** One iteration *)

Lemma set_lr_fold c (l : list (nat * R)) : ∀ groups,
  NoDup l.*1 → (∀ g v, (g, v) ∈ l → (g < length groups)%nat) →
  ∃ groups', foldM (set_lr c) groups l = Some groups' ∧
    length groups' = length groups ∧
    (∀ g v, (g, v) ∈ l → groups' !! g = Some (c * v)%R) ∧
    (∀ g, g ∉ l.*1 → groups' !! g = groups !! g).
Proof.
  induction l as [|[k v] l IH]; intros groups Hnd Hlt.
  - exists groups. do 2 (split; [done|]). split; [|done].
    intros g v Hin. by apply elem_of_nil in Hin.
  - rewrite fmap_cons in Hnd. apply NoDup_cons in Hnd as [Hk Hnd]. cbn [fst] in Hk.
    cbn [foldM]. unfold set_lr at 2.
    rewrite decide_True by (apply (Hlt k v); left). cbn [mbind option_bind].
    destruct (IH (<[k := (c * v)%R]> groups) Hnd) as (groups' & Hfold & Hlen & Hin & Hout).
    { intros g w Hgw. rewrite length_insert. apply (Hlt g w). by right. }
    exists groups'. split; [exact Hfold|].
    split; [by rewrite Hlen, length_insert|]. split.
    + intros g w Hgw. apply elem_of_cons in Hgw as [[= -> ->]|Hgw]; [|by eapply Hin].
      rewrite Hout by done. apply list_lookup_insert_eq. apply (Hlt k v). left.
    + intros g Hg. rewrite fmap_cons in Hg. apply not_elem_of_cons in Hg as [Hne Hg].
      rewrite Hout by done. by apply list_lookup_insert_ne.
Qed.

(** The hook knows no group the optimizer does not have. *)
Definition in_range (self : Hook) (n : nat) : Prop :=
  ∀ g v, bias_base_lr self !! g = Some v → (g < n)%nat.

Lemma before_train_iter_spec self runner :
  in_range self (length (param_groups runner)) →
  0 ≤ iter runner →
  ∃ runner', before_train_iter self runner = Some runner' ∧
    iter runner' = iter runner ∧
    parameter_names runner' = parameter_names runner ∧
    length (param_groups runner') = length (param_groups runner) ∧
    ∀ g, param_groups runner' !! g
         = match bias_base_lr self !! g with
           | Some v => if decide (iter runner < preheat_iters self)
                       then Some (factor self (iter runner) * v)%R
                       else param_groups runner !! g
           | None => param_groups runner !! g
           end.
Proof.
  intros Hrange Hi. unfold before_train_iter.
  destruct (decide (iter runner < preheat_iters self)) as [Hlt|Hge].
  2:{ exists runner. do 4 (split; [done|]). intros g.
      by destruct (bias_base_lr self !! g). }
  unfold true_div. rewrite decide_False by lia. cbn [mbind option_bind].
  destruct (set_lr_fold (cur_ratio (preheat_ratio self)
                           (IZR (iter runner) / IZR (preheat_iters self)))
              (map_to_list (bias_base_lr self)) (param_groups runner))
    as (groups' & Hfold & Hlen & Hin & Hout).
  { apply NoDup_fst_map_to_list. }
  { intros g v Hgv. apply elem_of_map_to_list in Hgv. by eapply Hrange. }
  rewrite Hfold. cbn [mbind option_bind]. eexists. split; [done|].
  do 3 (split; [done|]). cbn [param_groups]. intros g.
  destruct (bias_base_lr self !! g) as [v|] eqn:Eg.
  - apply Hin. by apply elem_of_map_to_list.
  - apply Hout. intros Hg. apply list_elem_of_fmap in Hg as ([g' v] & -> & Hgv).
    apply elem_of_map_to_list in Hgv. cbn [fst] in Eg. congruence.
Qed.

(** *** A run *)

Definition advance (runner : Runner) : Runner :=
  {| iter := iter runner + 1; parameter_names := parameter_names runner;
     param_groups := param_groups runner |}.

Lemma train_spec self n : ∀ runner,
  in_range self (length (param_groups runner)) →
  0 ≤ iter runner →
  ∃ runner', train self n runner = Some runner' ∧
    iter runner' = iter runner + Z.of_nat n ∧
    length (param_groups runner') = length (param_groups runner) ∧
    ∀ g, param_groups runner' !! g
         = match bias_base_lr self !! g with
           | Some v =>
               if decide (iter runner
                          < Z.min (iter runner + Z.of_nat n) (preheat_iters self))
               then Some (factor self (Z.min (iter runner + Z.of_nat n)
                                             (preheat_iters self) - 1) * v)%R
               else param_groups runner !! g
           | None => param_groups runner !! g
           end.
Proof.
  induction n as [|n IH]; intros runner Hrange Hi.
  - exists runner. split; [done|]. split; [simpl; lia|]. split; [done|].
    intros g. destruct (bias_base_lr self !! g); [|done].
    by rewrite decide_False by lia.
  - destruct (before_train_iter_spec self runner Hrange Hi)
      as (r1 & Hstep & Hi1 & _ & Hlen1 & Hg1).
    destruct (IH (advance r1)) as (r' & Hrun & Hi' & Hlen' & Hg').
    { cbn [advance param_groups]. by rewrite Hlen1. }
    { cbn [advance iter]. lia. }
    exists r'. cbn [train]. rewrite Hstep. cbn [mbind option_bind].
    split; [exact Hrun|]. cbn [advance iter param_groups] in Hi', Hlen', Hg'.
    split; [lia|]. split; [congruence|].
    intros g. rewrite Hg', Hg1, Hi1.
    destruct (bias_base_lr self !! g) as [v|]; [|done].
    set (k := iter runner). set (P := preheat_iters self).
    replace (k + 1 + Z.of_nat n) with (k + Z.of_nat (S n)) by lia.
    destruct (decide (k + 1 < Z.min (k + Z.of_nat (S n)) P)).
    + by rewrite (decide_True (P := k < Z.min _ _)) by lia.
    + destruct (decide (k < P)).
      * rewrite (decide_True (P := k < Z.min _ _)) by lia.
        do 3 f_equal. lia.
      * by rewrite (decide_False (P := k < Z.min _ _)) by lia.
Qed.

Lemma registered_in_range self self' runner :
  bias_base_lr self = ∅ →
  length (param_groups runner) = length (parameter_names runner) →
  (∀ g, bias_base_lr self' !! g
        = match parameter_names runner !! g with
          | Some name => if is_in ".bias" name then param_groups runner !! g
                         else bias_base_lr self !! g
          | None => bias_base_lr self !! g
          end) →
  in_range self' (length (param_groups runner)).
Proof.
  intros Hempty Hlen Hmap g v Hg. rewrite Hmap, Hempty in Hg.
  destruct (parameter_names runner !! g) eqn:En.
  - rewrite Hlen. by eapply lookup_lt_Some.
  - by rewrite lookup_empty in Hg.
Qed.

Lemma factor_of self self' i :
  preheat_iters self' = preheat_iters self → preheat_ratio self' = preheat_ratio self →
  factor self' i = factor self i.
Proof. unfold factor. by intros -> ->. Qed.

(** X20: after [before_run] on an optimizer with one group per parameter,
    in every iteration [i] before [preheat_iters] the callback sets the
    learning rate of each group whose parameter has [.bias] in its name to
    the rate the group had at [before_run] times
    [(preheat_ratio - 1) * (1 - i / preheat_iters) + 1], whatever the rate is
    by now, and leaves the rate of every other group as it finds it. *)
Theorem preheat_sets_bias_rates self runner :
  bias_base_lr self = ∅ →
  length (param_groups runner) = length (parameter_names runner) →
  ∃ self', before_run self runner = Some self' ∧
    ∀ later,
      length (param_groups later) = length (param_groups runner) →
      0 ≤ iter later < preheat_iters self →
      ∃ later', before_train_iter self' later = Some later' ∧
        iter later' = iter later ∧
        length (param_groups later') = length (param_groups later) ∧
        ∀ g name lr,
          parameter_names runner !! g = Some name →
          param_groups runner !! g = Some lr →
          param_groups later' !! g
          = if is_in ".bias" name then Some (factor self (iter later) * lr)%R
            else param_groups later !! g.
Proof.
  intros Hempty Hlen.
  destruct (bias_registration self runner Hlen) as (self' & Hrun & HP & Hr & Hmap).
  exists self'. split; [exact Hrun|]. intros later Hlater Hi.
  pose proof (registered_in_range _ _ _ Hempty Hlen Hmap) as Hrange.
  rewrite <- Hlater in Hrange.
  destruct (before_train_iter_spec self' later Hrange ltac:(lia))
    as (later' & Hstep & Hi' & _ & Hlen' & Hg).
  exists later'. do 3 (split; [done|]).
  intros g name lr Hname Hlr. rewrite Hg, Hmap, Hname, Hempty.
  destruct (is_in ".bias" name).
  - rewrite Hlr, decide_True by lia. by rewrite (factor_of self self').
  - by rewrite lookup_empty.
Qed.


(** X22: with a number of groups that is not the number of parameters the
    hook registers nothing, and no iteration changes a learning rate. *)
Theorem mismatch_disables_preheat self runner n :
  bias_base_lr self = ∅ →
  length (param_groups runner) ≠ length (parameter_names runner) →
  0 ≤ iter runner →
  before_run self runner = Some self ∧
  ∃ runner', train self n runner = Some runner' ∧
             iter runner' = iter runner + Z.of_nat n ∧
             param_groups runner' = param_groups runner.
Proof.
  intros Hempty Hlen Hi.
  split; [unfold before_run; by rewrite decide_True|].
  destruct (train_spec self n runner) as (r' & Hrun & Hi' & Hlen' & Hg); [|done|].
  { intros g v Hgv. by rewrite Hempty, lookup_empty in Hgv. }
  exists r'. do 2 (split; [done|]).
  apply list_eq. intros g. rewrite Hg, Hempty. by rewrite lookup_empty.
Qed.

(** X23: the hook writes a learning rate only during the preheat and never
    puts the rate of [before_run] back: after a run over the whole preheat,
    the rate of a bias group is what the last preheat iteration wrote,
    [1 + (preheat_ratio - 1) / preheat_iters] times the rate at [before_run],
    and the other rates are as they were. *)
Theorem rates_after_preheat self runner n :
  bias_base_lr self = ∅ →
  length (param_groups runner) = length (parameter_names runner) →
  iter runner = 0 → 0 < preheat_iters self ≤ Z.of_nat n →
  ∃ self' runner',
    before_run self runner = Some self' ∧
    train self' n runner = Some runner' ∧
    iter runner' = Z.of_nat n ∧
    ∀ g name lr,
      parameter_names runner !! g = Some name →
      param_groups runner !! g = Some lr →
      param_groups runner' !! g
      = Some (if is_in ".bias" name
              then (1 + (preheat_ratio self - 1) / IZR (preheat_iters self)) * lr
              else lr)%R.
Proof.
  intros Hempty Hlen Hi [HP Hn].
  destruct (bias_registration self runner Hlen) as (self' & Hrun & HP' & Hr & Hmap).
  pose proof (registered_in_range _ _ _ Hempty Hlen Hmap) as Hrange.
  destruct (train_spec self' n runner Hrange ltac:(lia))
    as (r' & Htrain & Hi' & _ & Hg).
  exists self', r'. do 2 (split; [done|]). split; [lia|].
  intros g name lr Hname Hlr. rewrite Hg, Hmap, Hname, Hempty.
  destruct (is_in ".bias" name).
  - rewrite Hlr, Hi, HP'. rewrite decide_True by lia.
    replace (Z.min (0 + Z.of_nat n) (preheat_iters self)) with (preheat_iters self) by lia.
    rewrite (factor_of self self') by done.
    assert (0 < IZR (preheat_iters self))%R by (by apply IZR_lt).
    do 2 f_equal. unfold factor, cur_ratio. rewrite minus_IZR. field. lra.
  - by rewrite lookup_empty.
Qed.

(** *** A convolution with a bias and a batch norm *)

Definition heat : Hook := __init__ 4 10.

Definition cold : Runner :=
  {| iter := 0;
     parameter_names := ["conv.weight"%string; "conv.bias"%string; "bn.weight"%string];
     param_groups := [1 / 100; 1 / 100; 1 / 50]%R |}.

(** The same model with an optimizer of one group. *)
Definition one_group : Runner :=
  {| iter := 0;
     parameter_names := ["conv.weight"%string; "conv.bias"%string; "bn.weight"%string];
     param_groups := [1 / 100]%R |}.

Definition decayed : Runner :=
  {| iter := 2;
     parameter_names := ["conv.weight"%string; "conv.bias"%string; "bn.weight"%string];
     param_groups := [1 / 200; 1 / 200; 1 / 100]%R |}.

Lemma preheat_sets_bias_rates_witness :
  ∃ self' later',
    before_run heat cold = Some self' ∧
    before_train_iter self' decayed = Some later' ∧
    param_groups later' !! 1%nat = Some (factor heat 2 * (1 / 100))%R ∧
    param_groups later' !! 2%nat = Some (1 / 100)%R.
Proof.
  destruct (preheat_sets_bias_rates heat cold eq_refl eq_refl) as (self' & Hrun & Hlater).
  destruct (Hlater decayed eq_refl ltac:(simpl; lia)) as (later' & Hstep & _ & _ & Hg).
  exists self', later'. split; [exact Hrun|]. split; [exact Hstep|]. split.
  - exact (Hg 1%nat "conv.bias"%string (1 / 100)%R eq_refl eq_refl).
  - exact (Hg 2%nat "bn.weight"%string (1 / 50)%R eq_refl eq_refl).
Defined.


Lemma mismatch_disables_preheat_witness :
  before_run heat one_group = Some heat ∧
  ∃ runner', train heat 3 one_group = Some runner' ∧
             param_groups runner' = [1 / 100]%R.
Proof.
  destruct (mismatch_disables_preheat heat one_group 3 eq_refl
              ltac:(simpl; lia) ltac:(simpl; lia))
    as (Hrun & runner' & Htrain & _ & Hg).
  split; [exact Hrun|]. by exists runner'.
Defined.

Lemma rates_after_preheat_witness :
  ∃ self' runner',
    before_run heat cold = Some self' ∧ train self' 6 cold = Some runner' ∧
    param_groups runner' !! 1%nat = Some ((1 + (10 - 1) / 4) * (1 / 100))%R ∧
    param_groups runner' !! 0%nat = Some (1 / 100)%R.
Proof.
  destruct (rates_after_preheat heat cold 6 eq_refl eq_refl eq_refl ltac:(simpl; lia))
    as (self' & runner' & Hrun & Htrain & _ & Hg).
  exists self', runner'. split; [exact Hrun|]. split; [exact Htrain|]. split.
  - exact (Hg 1%nat "conv.bias"%string (1 / 100)%R eq_refl eq_refl).
  - exact (Hg 0%nat "conv.weight"%string (1 / 100)%R eq_refl eq_refl).
Defined.

End BiasPreHeat.

(** ** Fp16GradAccumulateOptimizerHook *)

(** Lines 83-125.  The hook overrides three callbacks of [Fp16OptimizerHook],
    a class of the library, and calls the parent's [before_run] and
    [after_train_iter].  The bodies of these two are parameters here: a
    sequence of statements, each a call of [runner.model.zero_grad()], a call
    of [runner.optimizer.zero_grad()], some other step, which touches neither
    attribute, or a raise. *)
Module Fp16Accumulate.

(** What happens to the gradients. *)
Inductive event :=
| ModelGradsCleared        (* the [zero_grad] of the model ran *)
| OptimizerGradsCleared    (* the [zero_grad] of the optimizer ran *)
| Backward                 (* lines 123-124: the scaled loss, back-propagated *)
| ParentStep (n : nat).    (* the n-th kind of step of the parent *)

#[export] Instance event_eq_dec : EqDecision event.
Proof. solve_decision. Defined.

(** What the attribute [zero_grad] of an object is bound to. *)
Inductive zero_grad_fn := bound_method | dummyfun.

Record Runner := {
  iter : Z;
  model_zero_grad : zero_grad_fn;
  optimizer_zero_grad : zero_grad_fn;
  trace : list (Z * event)
}.

Inductive stmt := CallModelZeroGrad | CallOptimizerZeroGrad | Step (n : nat) | Raise.

Record Hook := {
  accumulation : Z;
  parent_before_run : list stmt;
  parent_after_train_iter : list stmt
}.

(** A callback returns, or raises and leaves the runner as it is by then. *)
Inductive result := Returned (runner : Runner) | Raised (runner : Runner).

Definition and_then (x : result) (k : Runner → result) : result :=
  match x with Returned runner => k runner | Raised runner => Raised runner end.

Definition emit (e : event) (runner : Runner) : Runner :=
  {| iter := iter runner; model_zero_grad := model_zero_grad runner;
     optimizer_zero_grad := optimizer_zero_grad runner;
     trace := trace runner ++ [(iter runner, e)] |}.

(** [runner.model.zero_grad()]: the attribute is looked up at the call. *)
Definition call_model_zero_grad (runner : Runner) : Runner :=
  match model_zero_grad runner with
  | bound_method => emit ModelGradsCleared runner
  | dummyfun => runner
  end.

(** [runner.optimizer.zero_grad()] *)
Definition call_optimizer_zero_grad (runner : Runner) : Runner :=
  match optimizer_zero_grad runner with
  | bound_method => emit OptimizerGradsCleared runner
  | dummyfun => runner
  end.

Fixpoint exec (body : list stmt) (runner : Runner) : result :=
  match body with
  | [] => Returned runner
  | CallModelZeroGrad :: rest => exec rest (call_model_zero_grad runner)
  | CallOptimizerZeroGrad :: rest => exec rest (call_optimizer_zero_grad runner)
  | Step n :: rest => exec rest (emit (ParentStep n) runner)
  | Raise :: _ => Raised runner
  end.

(** Lines 88-91 *)
Definition before_run (self : Hook) (runner : Runner) : result :=
  and_then (exec (parent_before_run self) runner) (λ runner,
    Returned (call_optimizer_zero_grad (call_model_zero_grad runner))).

(** Lines 93-96 *)
Definition before_train_iter (self : Hook) (runner : Runner) : result :=
  if decide (accumulation self = 0) then Raised runner
  else if decide (iter runner mod accumulation self = 0) then
    Returned (call_optimizer_zero_grad (call_model_zero_grad runner))
  else Returned runner.

Definition set_zero_grad (m o : zero_grad_fn) (runner : Runner) : Runner :=
  {| iter := iter runner; model_zero_grad := m; optimizer_zero_grad := o;
     trace := trace runner |}.

(** Lines 98-124 *)
Definition after_train_iter (self : Hook) (runner : Runner) : result :=
  if decide (accumulation self = 0) then Raised runner
  else if decide ((iter runner + 1) mod accumulation self = 0) then
    let model_zero_grad := model_zero_grad runner in
    let optimizer_zero_grad := optimizer_zero_grad runner in
    let runner := set_zero_grad dummyfun dummyfun runner in
    and_then (exec (parent_after_train_iter self) runner) (λ runner,
      Returned (set_zero_grad model_zero_grad optimizer_zero_grad runner))
  else Returned (emit Backward runner).

(** The training loop, which is not part of the repository: both callbacks
    once per iteration, in this order, then the iteration counter advances. *)
Definition advance (runner : Runner) : Runner :=
  {| iter := iter runner + 1; model_zero_grad := model_zero_grad runner;
     optimizer_zero_grad := optimizer_zero_grad runner; trace := trace runner |}.

Definition train_iter (self : Hook) (runner : Runner) : result :=
  and_then (before_train_iter self runner) (λ runner,
    and_then (after_train_iter self runner) (λ runner, Returned (advance runner))).

Fixpoint train (self : Hook) (n : nat) (runner : Runner) : result :=
  match n with
  | O => Returned runner
  | S n' => and_then (train_iter self runner) (train self n')
  end.

Definition runner_of (x : result) : Runner :=
  match x with Returned runner | Raised runner => runner end.

(** The steps of a body that run: those before its first raise. *)
Fixpoint steps (body : list stmt) : list event :=
  match body with
  | [] => []
  | Step n :: rest => ParentStep n :: steps rest
  | Raise :: _ => []
  | _ :: rest => steps rest
  end.

#[export] Instance stmt_eq_dec : EqDecision stmt.
Proof. solve_decision. Defined.

Definition raises (body : list stmt) : bool := bool_decide (Raise ∈ body).

(** *** The parent under the dummies *)

Lemma exec_dummies body : ∀ runner,
  model_zero_grad runner = dummyfun → optimizer_zero_grad runner = dummyfun →
  let runner' :=
    {| iter := iter runner; model_zero_grad := dummyfun;
       optimizer_zero_grad := dummyfun;
       trace := trace runner ++ ((λ e, (iter runner, e)) <$> steps body) |} in
  exec body runner = if raises body then Raised runner' else Returned runner'.
Proof.
  unfold raises.
  induction body as [|s body IH]; intros runner Hm Ho.
  - cbn. rewrite app_nil_r. destruct runner; cbn in *. by subst.
  - destruct s as [| |n|].
    + cbn [exec steps]. unfold call_model_zero_grad. rewrite Hm.
      rewrite (IH runner Hm Ho).
      destruct (decide (Raise ∈ body)) as [Hin|Hin].
      * rewrite !bool_decide_eq_true_2; [done|by right|done].
      * rewrite !bool_decide_eq_false_2; [done| |done].
        intros [?|?]%elem_of_cons; done.
    + cbn [exec steps]. unfold call_optimizer_zero_grad. rewrite Ho.
      rewrite (IH runner Hm Ho).
      destruct (decide (Raise ∈ body)) as [Hin|Hin].
      * rewrite !bool_decide_eq_true_2; [done|by right|done].
      * rewrite !bool_decide_eq_false_2; [done| |done].
        intros [?|?]%elem_of_cons; done.
    + cbn [exec steps]. rewrite (IH (emit (ParentStep n) runner) Hm Ho).
      cbn [emit iter trace]. rewrite fmap_cons, <- app_assoc. cbn [app].
      destruct (decide (Raise ∈ body)) as [Hin|Hin].
      * rewrite !bool_decide_eq_true_2; [done|by right|done].
      * rewrite !bool_decide_eq_false_2; [done| |done].
        intros [?|?]%elem_of_cons; done.
    + cbn [exec steps]. rewrite bool_decide_eq_true_2 by left.
      cbn. rewrite app_nil_r. destruct runner; cbn in *. by subst.
Qed.

Lemma steps_are_steps body e : e ∈ steps body → ∃ n, e = ParentStep n ∧ Step n ∈ body.
Proof.
  induction body as [|s body IH]; intros He; [by apply elem_of_nil in He|].
  destruct s as [| |n|]; cbn [steps] in He.
  - destruct (IH He) as (n & -> & Hn). exists n. split; [done|by right].
  - destruct (IH He) as (n & -> & Hn). exists n. split; [done|by right].
  - apply elem_of_cons in He as [->|He].
    + exists n. split; [done|left].
    + destruct (IH He) as (k & -> & Hk). exists k. split; [done|by right].
  - by apply elem_of_nil in He.
Qed.

Lemma steps_all body n : Raise ∉ body → Step n ∈ body → ParentStep n ∈ steps body.
Proof.
  induction body as [|s body IH]; intros Hr Hn; [by apply elem_of_nil in Hn|].
  apply not_elem_of_cons in Hr as [Hne Hr].
  apply elem_of_cons in Hn as [<-|Hn].
  - left.
  - destruct s as [| |k|]; cbn [steps]; [by apply IH..| |done].
    right. by apply IH.
Qed.

(** *** The callbacks *)

(** X24: whatever the parent does, [after_train_iter] clears no gradient:
    the calls of [zero_grad] the parent makes on the model and on the
    optimizer find the dummy.  When the callback returns, both attributes
    are bound to what they were bound to before. *)
Theorem parent_clears_nothing self runner :
  ∃ new,
    trace (runner_of (after_train_iter self runner)) = trace runner ++ new ∧
    (∀ e, e ∈ new → e.2 ≠ ModelGradsCleared ∧ e.2 ≠ OptimizerGradsCleared) ∧
    ∀ runner', after_train_iter self runner = Returned runner' →
      model_zero_grad runner' = model_zero_grad runner ∧
      optimizer_zero_grad runner' = optimizer_zero_grad runner ∧
      iter runner' = iter runner.
Proof.
  unfold after_train_iter.
  destruct (decide (accumulation self = 0)) as [Hz|Hacc].
  { exists []. rewrite app_nil_r. split; [done|]. split; [|done].
    intros e He. by apply elem_of_nil in He. }
  destruct (decide ((iter runner + 1) mod accumulation self = 0)) as [Hm|Hm].
  2:{ exists [(iter runner, Backward)]. split; [done|]. split.
      - intros e He. apply list_elem_of_singleton in He as ->. done.
      - by intros runner' [= <-]. }
  rewrite (exec_dummies _ (set_zero_grad dummyfun dummyfun runner) eq_refl eq_refl).
  cbn [set_zero_grad iter trace].
  exists ((λ e, (iter runner, e)) <$> steps (parent_after_train_iter self)).
  split; [by destruct (raises _)|]. split.
  - intros e He. apply list_elem_of_fmap in He as (e' & -> & He').
    apply steps_are_steps in He' as (k & -> & _). done.
  - intros runner'. destruct (raises _); [done|].
    cbn [and_then]. by intros [= <-].
Qed.

(** X25: nothing puts the attributes back when the parent raises: the
    callback raises with both [zero_grad] still bound to the dummy, and from
    then on [before_train_iter] clears nothing, in whatever iteration. *)
Theorem raise_leaves_dummies self runner :
  accumulation self ≠ 0 → (iter runner + 1) mod accumulation self = 0 →
  Raise ∈ parent_after_train_iter self →
  ∃ runner', after_train_iter self runner = Raised runner' ∧
    model_zero_grad runner' = dummyfun ∧ optimizer_zero_grad runner' = dummyfun ∧
    ∀ i, before_train_iter self
           {| iter := i; model_zero_grad := model_zero_grad runner';
              optimizer_zero_grad := optimizer_zero_grad runner';
              trace := trace runner' |}
         = Returned {| iter := i; model_zero_grad := dummyfun;
                       optimizer_zero_grad := dummyfun; trace := trace runner' |}.
Proof.
  intros Hacc Hmod Hraise. unfold after_train_iter.
  rewrite decide_False, decide_True by done.
  rewrite (exec_dummies _ (set_zero_grad dummyfun dummyfun runner) eq_refl eq_refl).
  unfold raises. rewrite bool_decide_eq_true_2 by done.
  eexists. split; [reflexivity|]. cbn. do 2 (split; [done|]).
  intros i. unfold before_train_iter. cbn [iter accumulation].
  rewrite decide_False by done. by destruct (decide (i mod accumulation self = 0)).
Qed.

(** *** A run *)

Definition fresh_runner : Runner :=
  {| iter := 0; model_zero_grad := bound_method; optimizer_zero_grad := bound_method;
     trace := [] |}.

(** The events of one iteration. *)
Definition events_at (self : Hook) (i : Z) : list event :=
  (if decide (i mod accumulation self = 0)
   then [ModelGradsCleared; OptimizerGradsCleared] else [])
  ++ (if decide ((i + 1) mod accumulation self = 0)
      then steps (parent_after_train_iter self) else [Backward]).

Lemma before_events self i tr :
  accumulation self ≠ 0 →
  before_train_iter self {| iter := i; model_zero_grad := bound_method;
                            optimizer_zero_grad := bound_method; trace := tr |}
  = Returned {| iter := i; model_zero_grad := bound_method;
                optimizer_zero_grad := bound_method;
                trace := tr ++ ((λ e, (i, e)) <$>
                                if decide (i mod accumulation self = 0)
                                then [ModelGradsCleared; OptimizerGradsCleared]
                                else []) |}.
Proof.
  intros Hacc. unfold before_train_iter. cbn [iter].
  rewrite decide_False by done.
  destruct (decide (i mod accumulation self = 0)).
  - unfold call_optimizer_zero_grad, call_model_zero_grad, emit. cbn.
    by rewrite <- app_assoc.
  - cbn. by rewrite app_nil_r.
Qed.

Lemma after_events self i tr :
  accumulation self ≠ 0 → Raise ∉ parent_after_train_iter self →
  after_train_iter self {| iter := i; model_zero_grad := bound_method;
                           optimizer_zero_grad := bound_method; trace := tr |}
  = Returned {| iter := i; model_zero_grad := bound_method;
                optimizer_zero_grad := bound_method;
                trace := tr ++ ((λ e, (i, e)) <$>
                                if decide ((i + 1) mod accumulation self = 0)
                                then steps (parent_after_train_iter self)
                                else [Backward]) |}.
Proof.
  intros Hacc Hraise. unfold after_train_iter. cbn [iter].
  rewrite decide_False by done.
  destruct (decide ((i + 1) mod accumulation self = 0)); [|done].
  rewrite (exec_dummies _ (set_zero_grad dummyfun dummyfun _) eq_refl eq_refl).
  unfold raises. rewrite bool_decide_eq_false_2 by done. reflexivity.
Qed.

Lemma train_iter_events self i tr :
  accumulation self ≠ 0 → Raise ∉ parent_after_train_iter self →
  train_iter self {| iter := i; model_zero_grad := bound_method;
                     optimizer_zero_grad := bound_method; trace := tr |}
  = Returned {| iter := i + 1; model_zero_grad := bound_method;
                optimizer_zero_grad := bound_method;
                trace := tr ++ ((λ e, (i, e)) <$> events_at self i) |}.
Proof.
  intros Hacc Hraise. unfold train_iter.
  rewrite before_events by done. cbn [and_then].
  rewrite after_events by done. cbn [and_then advance iter model_zero_grad
                                     optimizer_zero_grad trace].
  unfold events_at. by rewrite fmap_app, app_assoc.
Qed.

Lemma train_events self n : ∀ i tr,
  accumulation self ≠ 0 → Raise ∉ parent_after_train_iter self →
  train self n {| iter := i; model_zero_grad := bound_method;
                  optimizer_zero_grad := bound_method; trace := tr |}
  = Returned {| iter := i + Z.of_nat n; model_zero_grad := bound_method;
                optimizer_zero_grad := bound_method;
                trace := tr ++ concat ((λ j, (λ e, (j, e)) <$> events_at self j)
                                       <$> seqZ i (Z.of_nat n)) |}.
Proof.
  induction n as [|n IH]; intros i tr Hacc Hraise.
  - cbn. by rewrite Z.add_0_r, app_nil_r.
  - cbn [train]. rewrite train_iter_events by done. cbn [and_then].
    rewrite IH by done.
    replace (Z.of_nat (S n)) with (Z.succ (Z.of_nat n)) by lia.
    rewrite (seqZ_cons i) by lia.
    rewrite Z.pred_succ, fmap_cons, concat_cons, <- app_assoc.
    replace (i + 1) with (Z.succ i) by lia.
    do 2 f_equal. lia.
Qed.

Lemma elem_of_events (F : Z → list event) (l : list Z) i e :
  (i, e) ∈ concat ((λ j, (λ e, (j, e)) <$> F j) <$> l) ↔ i ∈ l ∧ e ∈ F i.
Proof.
  induction l as [|j l IH].
  - cbn. split; [intros H; by apply elem_of_nil in H|intros [H _]; by apply elem_of_nil in H].
  - rewrite fmap_cons, concat_cons, elem_of_app, IH, elem_of_cons, list_elem_of_fmap.
    split.
    + intros [(e' & [= -> ->] & He)|[Hi He]]; [by split; [left|]|by split; [right|]].
    + intros [[->|Hi] He]; [left; by exists e|by right].
Qed.

(** X26: a run of any length with a parent that does not raise.  The
    gradients are cleared before the iterations [i] with [acc | i], by
    [before_train_iter], and at no other time; the parent runs its steps
    after the iterations with [acc | i + 1], and the other iterations only
    back-propagate; the attributes are bound as at the start. *)
Theorem fp16_run_schedule self n :
  accumulation self ≠ 0 → Raise ∉ parent_after_train_iter self →
  let acc := accumulation self in
  ∃ runner', train self n fresh_runner = Returned runner' ∧
    iter runner' = Z.of_nat n ∧
    model_zero_grad runner' = bound_method ∧
    optimizer_zero_grad runner' = bound_method ∧
    (∀ i, (i, ModelGradsCleared) ∈ trace runner' ↔ 0 ≤ i < Z.of_nat n ∧ i mod acc = 0) ∧
    (∀ i, (i, OptimizerGradsCleared) ∈ trace runner'
          ↔ 0 ≤ i < Z.of_nat n ∧ i mod acc = 0) ∧
    (∀ i, (i, Backward) ∈ trace runner' ↔ 0 ≤ i < Z.of_nat n ∧ (i + 1) mod acc ≠ 0) ∧
    (∀ i k, (i, ParentStep k) ∈ trace runner'
            ↔ 0 ≤ i < Z.of_nat n ∧ (i + 1) mod acc = 0 ∧
              Step k ∈ parent_after_train_iter self).
Proof.
  intros Hacc Hraise acc. eexists. split; [by apply train_events|].
  cbn [iter model_zero_grad optimizer_zero_grad trace]. rewrite app_nil_l.
  split; [lia|]. do 2 (split; [done|]).
  assert (∀ i, i ∈ seqZ 0 (Z.of_nat n) ↔ 0 ≤ i < Z.of_nat n) as Hseq
    by (intros i; rewrite elem_of_seqZ; lia).
  assert (∀ e, e ∈ steps (parent_after_train_iter self) →
               e ≠ ModelGradsCleared ∧ e ≠ OptimizerGradsCleared ∧ e ≠ Backward) as Hsteps.
  { intros e He. by apply steps_are_steps in He as (k & -> & _). }
  repeat split.
  - apply elem_of_events in H as [? _]. by apply Hseq.
  - apply elem_of_events in H as [? _]. by apply Hseq.
  - apply elem_of_events in H as [_ He]. unfold events_at in He. fold acc in He.
    destruct (decide (i mod acc = 0)); [done|]. rewrite app_nil_l in He.
    destruct (decide ((i + 1) mod acc = 0)).
    + by destruct (Hsteps _ He) as (? & _).
    + by apply list_elem_of_singleton in He.
  - intros [Hi Hm]. apply elem_of_events. split; [by apply Hseq|].
    unfold events_at. fold acc. rewrite decide_True by done. left.
  - apply elem_of_events in H as [? _]. by apply Hseq.
  - apply elem_of_events in H as [? _]. by apply Hseq.
  - apply elem_of_events in H as [_ He]. unfold events_at in He. fold acc in He.
    destruct (decide (i mod acc = 0)); [done|]. rewrite app_nil_l in He.
    destruct (decide ((i + 1) mod acc = 0)).
    + by destruct (Hsteps _ He) as (_ & ? & _).
    + by apply list_elem_of_singleton in He.
  - intros [Hi Hm]. apply elem_of_events. split; [by apply Hseq|].
    unfold events_at. fold acc. rewrite decide_True by done. right. left.
  - apply elem_of_events in H as [? _]. by apply Hseq.
  - apply elem_of_events in H as [? _]. by apply Hseq.
  - apply elem_of_events in H as [_ He]. unfold events_at in He. fold acc in He.
    intros Hm. rewrite (decide_True (P := (i + 1) mod acc = 0)) in He by done.
    apply elem_of_app in He as [He|He].
    + destruct (decide (i mod acc = 0)); [|by apply elem_of_nil in He].
      rewrite !elem_of_cons in He. destruct He as [?|[?|He]]; [done..|].
      by apply elem_of_nil in He.
    + by destruct (Hsteps _ He) as (_ & _ & ?).
  - intros [Hi Hm]. apply elem_of_events. split; [by apply Hseq|].
    unfold events_at. fold acc. rewrite (decide_False (P := (i + 1) mod acc = 0)) by done.
    apply elem_of_app. right. left.
  - apply elem_of_events in H as [? _]. by apply Hseq.
  - apply elem_of_events in H as [? _]. by apply Hseq.
  - apply elem_of_events in H as [_ He]. unfold events_at in He. fold acc in He.
    destruct (decide ((i + 1) mod acc = 0)); [done|].
    apply elem_of_app in He as [He|He].
    + destruct (decide (i mod acc = 0)); [|by apply elem_of_nil in He].
      rewrite !elem_of_cons in He. destruct He as [?|[?|He]]; [done..|].
      by apply elem_of_nil in He.
    + by apply list_elem_of_singleton in He.
  - apply elem_of_events in H as [_ He]. unfold events_at in He. fold acc in He.
    apply elem_of_app in He as [He|He].
    + destruct (decide (i mod acc = 0)); [|by apply elem_of_nil in He].
      rewrite !elem_of_cons in He. destruct He as [?|[?|He]]; [done..|].
      by apply elem_of_nil in He.
    + destruct (decide ((i + 1) mod acc = 0)); [|by apply list_elem_of_singleton in He].
      apply steps_are_steps in He as (k' & [= <-] & Hk). done.
  - intros (Hi & Hm & Hk). apply elem_of_events. split; [by apply Hseq|].
    unfold events_at. fold acc. rewrite (decide_True (P := (i + 1) mod acc = 0)) by done.
    apply elem_of_app. right. by apply steps_all.
Qed.

(** *** A window of two iterations *)

(** The parent as the library has it: it clears the gradients, scales and
    back-propagates the loss (0), copies the gradients to the fp32 weights
    (1), steps the optimizer (2) and copies the weights back (3). *)
Definition fp16_hook : Hook :=
  {| accumulation := 2;
     parent_before_run := [Step 4];
     parent_after_train_iter :=
       [CallModelZeroGrad; CallOptimizerZeroGrad; Step 0; Step 1; Step 2; Step 3] |}.

(** A parent whose optimizer step raises. *)
Definition failing_hook : Hook :=
  {| accumulation := 2;
     parent_before_run := [Step 4];
     parent_after_train_iter :=
       [CallModelZeroGrad; CallOptimizerZeroGrad; Step 0; Step 1; Raise; Step 3] |}.

Example two_windows :
  trace (runner_of (train fp16_hook 4 fresh_runner))
  = [(0, ModelGradsCleared); (0, OptimizerGradsCleared); (0, Backward);
     (1, ParentStep 0); (1, ParentStep 1); (1, ParentStep 2); (1, ParentStep 3);
     (2, ModelGradsCleared); (2, OptimizerGradsCleared); (2, Backward);
     (3, ParentStep 0); (3, ParentStep 1); (3, ParentStep 2); (3, ParentStep 3)].
Proof. reflexivity. Qed.

Lemma raise_leaves_dummies_witness :
  ∃ runner',
    after_train_iter failing_hook (advance fresh_runner) = Raised runner' ∧
    before_train_iter failing_hook
      {| iter := 2; model_zero_grad := model_zero_grad runner';
         optimizer_zero_grad := optimizer_zero_grad runner'; trace := trace runner' |}
    = Returned {| iter := 2; model_zero_grad := dummyfun;
                  optimizer_zero_grad := dummyfun; trace := trace runner' |}.
Proof.
  destruct (raise_leaves_dummies failing_hook (advance fresh_runner))
    as (runner' & Hraise & _ & _ & Hlater).
  - simpl. lia.
  - reflexivity.
  - apply (bool_decide_unpack _). reflexivity.
  - exists runner'. split; [exact Hraise | exact (Hlater 2)].
Defined.

Lemma fp16_run_schedule_witness :
  ∃ runner', train fp16_hook 5 fresh_runner = Returned runner' ∧
             (2, ModelGradsCleared) ∈ trace runner' ∧
             ((3, ModelGradsCleared) ∉ trace runner') ∧
             (3, ParentStep 2) ∈ trace runner' ∧
             (4, Backward) ∈ trace runner'.
Proof.
  destruct (fp16_run_schedule fp16_hook 5) as (runner' & Hrun & _ & _ & _ & Hm & _ & Hb & Hp).
  - simpl. lia.
  - apply (bool_decide_unpack _). reflexivity.
  - exists runner'. split; [exact Hrun|]. split; [|split; [|split]].
    + apply Hm. split; [lia|reflexivity].
    + intros Hin. apply Hm in Hin as [_ Hmod]. discriminate Hmod.
    + apply Hp. split; [lia|]. split; [reflexivity|].
      apply (bool_decide_unpack _). reflexivity.
    + apply Hb. split; [lia|]. discriminate.
Defined.

End Fp16Accumulate.
